(** * The [crank run] command: a shallow embedding of [src/commands/run.ts]

    The development follows the current [Run] command class: token flag
    parsing ([parseTokens]), scenario discovery ([parseScenarioFiles]), the
    set-up stage of [run], the per-scenario walk over [optimizedSteps] with
    its cascade of skipped steps, and the [finally] hook.

    Collaborators whose code lives in other files of the repository
    ([Scenario], [Step], [Timer], [CogManager], [StepAwareCommand]) are kept
    behind the [Host] interface or modelled from the written specification;
    each such definition says so. *)

From Stdlib Require Import Ascii String.
From stdpp Require Import gmap strings list fin_maps.

Local Open Scope string_scope.

(* ===================================================================== *)
(** * JavaScript strings and plain objects *)
(* ===================================================================== *)

Module Js.

(** [s.split(sep)] for a one-character separator: the pieces between the
    occurrences of [sep]; never empty (the empty string gives one empty
    piece). *)
Fixpoint split_on (sep : ascii) (s : string) : list string :=
  match s with
  | EmptyString => [EmptyString]
  | String c r =>
      if decide (c = sep) then EmptyString :: split_on sep r
      else match split_on sep r with
           | [] => [String c EmptyString]
           | p :: ps => String c p :: ps
           end
  end.

(** [s.split(sep, limit)]: the first [limit] pieces of the full split. *)
Definition split (sep : ascii) (limit : nat) (s : string) : list string :=
  take limit (split_on sep s).

(** Truthiness of a value that is a string or [undefined] ([None]). *)
Definition truthy (v : option string) : bool :=
  match v with
  | Some s => negb (String.eqb s "")
  | None => false
  end.

(** [o[k] = v] on an object literal [{}] holding strings.  The key
    [__proto__] reaches the accessor inherited from [Object.prototype],
    whose setter ignores a value that is neither an object nor [null]:
    no own property is created. *)
Definition obj_set (k v : string) (o : gmap string string) : gmap string string :=
  if decide (k = "__proto__") then o else <[k := v]> o.

(** [s.replace(/\\/g, '/')]: every backslash becomes a slash. *)
Fixpoint replace_backslashes (s : string) : string :=
  match s with
  | EmptyString => EmptyString
  | String c r =>
      String (if decide (c = "\"%char) then "/"%char else c) (replace_backslashes r)
  end.

(** [x instanceof Array ? ... : ...]: a property that holds either one
    value or an array of values. *)
Inductive OneOrMany (A : Type) : Type :=
| One (a : A)
| Many (l : list A).
Arguments One {A} a.
Arguments Many {A} l.

(** [x instanceof Array ? x[0] : x]; [None] is [undefined] (index 0 of an
    empty array). *)
Definition first_or_self {A} (x : OneOrMany A) : option A :=
  match x with
  | One a => Some a
  | Many l => head l
  end.

(** The values held, in order. *)
Definition values {A} (x : OneOrMany A) : list A :=
  match x with
  | One a => [a]
  | Many l => l
  end.

End Js.

(* ===================================================================== *)
(** * [Run.parseTokens] *)
(* ===================================================================== *)

(** One iteration of the [forEach] body of [parseTokens]. *)
Definition parseTokens_step (tokens : gmap string string) (token : string)
  : gmap string string :=
  let splat := Js.split "="%char 2 token in
  if Js.truthy (splat !! 0) && Js.truthy (splat !! 1) then
    match splat !! 0, splat !! 1 with
    | Some name, Some value => Js.obj_set name value tokens
    | _, _ => tokens
    end
  else tokens.

Definition parseTokens (tokensFromFlags : list string) : gmap string string :=
  foldl parseTokens_step ∅ tokensFromFlags.

(** ** The wording of the token rule, independent of [split] *)

(** The text before the first ['='] (the whole text when there is none). *)
Fixpoint before_eq (s : string) : string :=
  match s with
  | EmptyString => EmptyString
  | String c r => if decide (c = "="%char) then EmptyString else String c (before_eq r)
  end.

(** The remainder after the first ['='], when there is one. *)
Fixpoint after_eq (s : string) : option string :=
  match s with
  | EmptyString => None
  | String c r => if decide (c = "="%char) then Some r else after_eq r
  end.

(** The value a raw token carries: its remainder cut at the next ['=']. *)
Definition token_value (t : string) : option string := before_eq <$> after_eq t.

(** A raw token defines [name] when it has that non-empty name and a
    non-empty value, and the name is not the reserved [__proto__]. *)
Definition defines (t name : string) : Prop :=
  before_eq t = name ∧ name ≠ "" ∧ name ≠ "__proto__" ∧
  ∃ v, token_value t = Some v ∧ v ≠ "".

(** The rule as first worded: an entry exactly for the raw values with a
    non-empty name before the first ['='] and a non-empty remainder after
    it. *)
Definition entry_iff_nonempty_sides : Prop :=
  ∀ (raw : list string) (name : string),
    is_Some (parseTokens raw !! name) ↔
    ∃ t r, t ∈ raw ∧ before_eq t = name ∧ name ≠ "" ∧ after_eq t = Some r ∧ r ≠ "".

(* ===================================================================== *)
(** * Data model *)
(* ===================================================================== *)

(** [RunStepResponse.Outcome] of the connector protocol. *)
Inductive Outcome := PASSED | FAILED | ERROR.

Global Instance Outcome_eq_dec : EqDecision Outcome.
Proof. solve_decision. Defined.

(** A [RunStepResponse]: the outcome tag and the human-readable detail. *)
Record RunStepResponse := { getOutcome : Outcome; getMessage : string }.

(** A protocol-level operation payload ([RunStepRequest.Step]). *)
Record ProtoStep := { stepId : string; data : list (string * string) }.

(** The handle of a live connector client. *)
Inductive Client := Handle (id : nat).

Global Instance Client_eq_dec : EqDecision Client.
Proof. solve_decision. Defined.

(** [models/step]: a runner step.  [protoSteps] is an array (line 210
    iterates it with [forEach]); [stepText] is one text or an array of
    texts; [client] is [None] until a client is attached; [waitFor] and
    [failAfter] are arrays read at index 0. *)
Record RunnerStep := {
  cog : string;
  protoSteps : list ProtoStep;
  stepText : Js.OneOrMany string;
  client : option Client;
  waitFor : list nat;
  failAfter : list nat;
}.

(** The object literal handed to [new RunnerStep({...})] for a group
    (lines 228-236).  An entry is [None] where the source reads index 0 of
    an empty array ([undefined]). *)
Record StepRunner := {
  runner_cog : string;
  runner_protoSteps : list (option ProtoStep);
  runner_stepText : list (option string);
  runner_client : option Client;
  runner_waitFor : list (option nat);
  runner_failAfter : list (option nat);
}.

(** An element of [scenario.optimizedSteps]: a step, or an array of steps
    ([step instanceof Array]). *)
Inductive PlanElement :=
| Single (step : RunnerStep)
| Group (step : list RunnerStep).

(** [models/scenario]: what [run] reads of a scenario. *)
Record Scenario := {
  name : string;
  file : string;
  steps : list RunnerStep;
  optimizedSteps : list PlanElement;
}.

(** Modelled from the spec: [services/timer] is not among the sources.  A
    Timer holds counters for passed, failed and skipped step-units; each
    [add...Step(n)] adds [n], one when called without argument. *)
Record Timer := { passed : nat; failed : nat; skipped : nat }.

Definition newTimer : Timer := {| passed := 0; failed := 0; skipped := 0 |}.

Definition addPassedStep (n : nat) (t : Timer) : Timer :=
  {| passed := passed t + n; failed := failed t; skipped := skipped t |}.

Definition addFailedStep (n : nat) (t : Timer) : Timer :=
  {| passed := passed t; failed := failed t + n; skipped := skipped t |}.

Definition addSkippedStep (n : nat) (t : Timer) : Timer :=
  {| passed := passed t; failed := failed t; skipped := skipped t + n |}.

(** Units counted so far. *)
Definition counted (t : Timer) : nat := passed t + failed t + skipped t.

(** What [runStep] / [runSteps] reject with: an array of responses, a lone
    response, or any other thrown value. *)
Inductive Thrown :=
| Responses (e : list RunStepResponse)
| Response (e : RunStepResponse)
| Exception (message : string).

Inductive Settled :=
| Resolved
| Rejected (e : Thrown).

(** Errors of the set-up stage, as the [catch] of lines 182-203 tells them
    apart. *)
Inductive SetupError :=
| AuthenticationError (message : string) (helpUrl : option string)
| MissingStepError (message : string)
| Error (message : string).

(** The payload of [reject({innerIndex, stepIndex})]. *)
Record Abort := { innerIndex : nat; stepIndex : nat }.

(** Observable actions of the command, in order. *)
Inductive Event :=
| Log (line : string)                              (* this.log(line) *)
| LogSetupError (e : SetupError)                   (* this.log(chalk.red(`  ${e}`)) *)
| OpenUrl (text url : string)                      (* cli.url(text, url) *)
| NewTimer                                         (* new Timer() *)
| CalledRunStep (step : RunnerStep) (r : Settled)  (* this.runStep(step, 2, true, false) *)
| CalledRunSteps (step : StepRunner) (r : Settled) (* this.runSteps(stepRunner, 2, true, false) *)
| LogSkipped (text : Js.OneOrMany string)          (* the scissors line of a skipped step *)
| PrintTime (t : Timer)                            (* timer.printTime(...) *)
| CalledStop (c : Client) (clean : bool)           (* a session torn down by stopAllCogs *)
| CalledStopAllCogs.                               (* this.cogManager.stopAllCogs() *)

(** How an [async] method ends. *)
Inductive Completion :=
| Returned
| Threw.

(** The parsed command line: [args.file], [flags.token], [flags['use-ssl']]. *)
Record Parsed := {
  args_file : string;
  flags_token : option (list string);
  flags_use_ssl : bool;
}.

(* ===================================================================== *)
(** * Collaborators *)
(* ===================================================================== *)

(** What the command calls outside [run.ts]. *)
Class Host := {
  (** the connectors and everything else outside the process state *)
  World : Type;
  (** [this.parse(Run)]; [None] when the parser throws *)
  parse : list string → option Parsed;
  (** [fs.lstatSync(p).isDirectory()]; [None] when [lstatSync] throws *)
  lstat_isDirectory : string → option bool;
  (** [glob.sync(pattern, {absolute: true})] *)
  glob_sync : string → list string;
  (** [new Scenario({registries, fromFile, tokenOverrides})], which may throw *)
  newScenario : string → gmap string string → SetupError + Scenario;
  (** starting the sessions of [decorateStepsWithClients]: the client of
      each connector named by the steps, or the error thrown *)
  startCogs : list RunnerStep → bool → World → (SetupError + (string → Client)) * World;
  (** [this.coerceProtoStepTypes(protoStep, cog)], which rewrites the
      payload in place *)
  coerceProtoStepTypes : ProtoStep → string → ProtoStep;
  (** [this.runStep(step, 2, true, false)] *)
  runStep : RunnerStep → World → Settled * World;
  (** [this.runSteps(stepRunner, 2, true, false)] *)
  runSteps : StepRunner → World → Settled * World;
  (** the sessions alive in a world, and the attempt to end one ([false]
      when it does not end cleanly) *)
  liveSessions : World → list Client;
  endSession : Client → World → bool * World;
}.

(* ===================================================================== *)
(** * The command *)
(* ===================================================================== *)

Section Effects.
Context {host : Host}.

(** The state the command threads: the outside world, [process.exitCode]
    ([None] while unset) and the actions so far. *)
Record Process := {
  world : World;
  exitCode : option nat;
  output : list Event;
}.

Definition M (A : Type) : Type := Process → A * Process.

Definition ret {A} (a : A) : M A := fun p => (a, p).

Definition bind {A B} (m : M A) (k : A → M B) : M B :=
  fun p => let (a, p') := m p in k a p'.

Definition emit (e : Event) : M unit :=
  fun p => (tt, {| world := world p; exitCode := exitCode p; output := output p ++ [e] |}).

Definition setExitCode (n : nat) : M unit :=
  fun p => (tt, {| world := world p; exitCode := Some n; output := output p |}).

Definition outside {A} (f : World → A * World) : M A :=
  fun p => let (a, w) := f (world p) in
           (a, {| world := w; exitCode := exitCode p; output := output p |}).

End Effects.

Notation "'let*' x ':=' m 'in' k" := (bind m (fun x => k))
  (at level 10, x pattern, m at level 100, k at level 200, only parsing).
Notation "m '>>' k" := (bind m (fun _ => k))
  (at level 100, k at level 200, right associativity, only parsing).

Definition nl : string := String (ascii_of_nat 10) EmptyString.

Section Run.
Context {host : Host}.

(** ** [parseScenarioFiles] (lines 315-349) *)

(** [files.map(file => new Scenario({...}))]: the first constructor that
    throws ends the map. *)
Fixpoint parse_each (files : list string) (tokens : gmap string string)
  : SetupError + list Scenario :=
  match files with
  | [] => inr []
  | f :: rest =>
      match newScenario f tokens with
      | inl e => inl e
      | inr s =>
          match parse_each rest tokens with
          | inl e => inl e
          | inr ss => inr (s :: ss)
          end
      end
  end.

Definition parseScenarioFiles (fileOrDirectory : string) (tokens : gmap string string)
  : SetupError + list Scenario :=
  let windowsSafeGlob := Js.replace_backslashes fileOrDirectory in
  let isDirectory :=
    match lstat_isDirectory fileOrDirectory with
    | Some b => b
    | None => false
    end in
  if negb isDirectory then
    match newScenario fileOrDirectory tokens with
    | inl e => inl e
    | inr s => inr [s]
    end
  else
    let files := glob_sync (windowsSafeGlob ++ "/**/*.crank.yml") in
    if Nat.eqb (length files) 0 then
      inl (Error ("No .crank.yml files found in " ++ fileOrDirectory))
    else parse_each files tokens.

(** ** Client attachment *)

(** Modelled from the spec: [CogManager.decorateStepsWithClients] is not
    among the sources.  It ensures one session per distinct connector
    named by the steps ([startCogs]) and sets each step's client handle
    to the client of its connector's session.  The step objects are
    shared with [optimizedSteps], so the plan sees the handles. *)
Definition attachClient (sessions : string → Client) (s : RunnerStep) : RunnerStep :=
  {| cog := cog s; protoSteps := protoSteps s; stepText := stepText s;
     client := Some (sessions (cog s));
     waitFor := waitFor s; failAfter := failAfter s |}.

Definition onElement (f : RunnerStep → RunnerStep) (el : PlanElement) : PlanElement :=
  match el with
  | Single s => Single (f s)
  | Group g => Group (map f g)
  end.

Definition onScenario (f : RunnerStep → RunnerStep) (sc : Scenario) : Scenario :=
  {| name := name sc; file := file sc;
     steps := map f (steps sc);
     optimizedSteps := map (onElement f) (optimizedSteps sc) |}.

(** Modelled from the spec: the call of line 178 on the flattened steps of
    all scenarios; it throws what starting a session throws, and
    otherwise leaves every step of every scenario with its client. *)
Definition decorateStepsWithClients (scenarios : list Scenario) (useSsl : bool)
  : M (SetupError + list Scenario) :=
  let* r := outside (startCogs (concat (map steps scenarios)) useSsl) in
  match r with
  | inl e => ret (inl e)
  | inr sessions => ret (inr (map (onScenario (attachClient sessions)) scenarios))
  end.

(** ** Type coercion (lines 205-215) *)

Definition coerceStep (s : RunnerStep) : RunnerStep :=
  {| cog := cog s;
     protoSteps := map (fun protoStep => coerceProtoStepTypes protoStep (cog s)) (protoSteps s);
     stepText := stepText s; client := client s;
     waitFor := waitFor s; failAfter := failAfter s |}.

(** ** One plan element (lines 225-260) *)

(** The merged runner step of a group (lines 228-236).  [step[0].cog] on
    an empty array throws a [TypeError]: [None].  [protoSteps] being an
    array, [s.protoSteps instanceof Array ? s.protoSteps[0] : s.protoSteps]
    is [s.protoSteps[0]]; [stepText] may be either. *)
Definition stepRunner (step : list RunnerStep) : option StepRunner :=
  match step with
  | [] => None
  | first :: _ =>
      Some {| runner_cog := cog first;
              runner_protoSteps := map (fun s => head (protoSteps s)) step;
              runner_stepText := map (fun s => Js.first_or_self (stepText s)) step;
              runner_client := client first;
              runner_waitFor := map (fun s => head (waitFor s)) step;
              runner_failAfter := map (fun s => head (failAfter s)) step |}
  end.

Definition notPassed (s : RunStepResponse) : Prop := getOutcome s ≠ PASSED.

Global Instance notPassed_dec s : Decision (notPassed s).
Proof. unfold notPassed. apply _. Defined.

(** The [catch (e)] of lines 245-259. *)
Definition catchStep (e : Thrown) (index : nat) (timer : Timer) : M (Timer * option Abort) :=
  let timer' :=
    match e with
    | Responses e =>
        let failures := filter notPassed e in
        addFailedStep (length failures)
          (addPassedStep (length e - length failures) timer)
    | _ => addFailedStep 1 timer
    end in
  setExitCode 1 >>
  ret (timer',
       Some {| innerIndex := match e with Responses e => length e | _ => 0 end;
               stepIndex := index |}).

(** The mapper of the inner [mapSeries]: [None] when its promise
    resolves, the rejection payload otherwise. *)
Definition runElement (step : PlanElement) (index : nat) (timer : Timer)
  : M (Timer * option Abort) :=
  match step with
  | Group step =>
      match stepRunner step with
      | None => catchStep (Exception "TypeError") index timer
      | Some runner =>
          let* r := outside (runSteps runner) in
          emit (CalledRunSteps runner r) >>
          match r with
          | Resolved => ret (addPassedStep (length step) timer, None)
          | Rejected e => catchStep e index timer
          end
      end
  | Single step =>
      let* r := outside (runStep step) in
      emit (CalledRunStep step r) >>
      match r with
      | Resolved => ret (addPassedStep 1 timer, None)
      | Rejected e => catchStep e index timer
      end
  end.

(** [Bluebird.mapSeries(scenario.optimizedSteps, ...)]: one element
    after the other; the first rejection ends the series. *)
Fixpoint mapSeriesSteps (plan : list PlanElement) (index : nat) (timer : Timer)
  : M (Timer * option Abort) :=
  match plan with
  | [] => ret (timer, None)
  | step :: rest =>
      let* (timer', rejected) := runElement step index timer in
      match rejected with
      | Some a => ret (timer', Some a)
      | None => mapSeriesSteps rest (S index) timer'
      end
  end.

(** ** The cascade of skipped steps (lines 265-276) *)

Fixpoint skipEach (members : list RunnerStep) (timer : Timer) : M Timer :=
  match members with
  | [] => ret timer
  | s :: rest =>
      emit (LogSkipped (stepText s)) >>
      skipEach rest (addSkippedStep 1 timer)
  end.

(** The [forEach] over [optimizedSteps.slice(stepIndex)]; [innerIndex] is
    the captured variable, reset after the first array. *)
Fixpoint skipFrom (rest : list PlanElement) (innerIndex : nat) (timer : Timer) : M Timer :=
  match rest with
  | [] => ret timer
  | Group step :: rest' =>
      let* timer' := skipEach (drop innerIndex step) timer in
      skipFrom rest' 0 timer'
  | Single step :: rest' =>
      emit (LogSkipped (stepText step)) >>
      skipFrom rest' innerIndex (addSkippedStep 1 timer)
  end.

(** ** One scenario (lines 219-279) *)

(** Returns the overall Timer and the scenario's own Timer as they are
    when the scenario is done. *)
Definition runScenario (scenario : Scenario) (overallTimer : Timer) : M (Timer * Timer) :=
  emit (Log (nl ++ name scenario ++ nl)) >>
  emit NewTimer >>
  let* (timer, rejected) := mapSeriesSteps (optimizedSteps scenario) 0 newTimer in
  let* (overallTimer', timer') :=
    match rejected with
    | None => ret (addPassedStep 1 overallTimer, timer)
    | Some a =>
        let* timer' :=
          skipFrom (drop (stepIndex a) (optimizedSteps scenario)) (innerIndex a) timer in
        ret (addFailedStep 1 overallTimer, timer')
    end in
  emit (PrintTime timer') >>
  ret (overallTimer', timer').

(** The outer [mapSeries]: the scenarios one at a time, in input order.
    Returns the overall Timer and every scenario's Timer. *)
Fixpoint mapSeriesScenarios (scenarios : list Scenario) (overallTimer : Timer)
  : M (Timer * list Timer) :=
  match scenarios with
  | [] => ret (overallTimer, [])
  | scenario :: rest =>
      let* (overallTimer', timer) := runScenario scenario overallTimer in
      let* (overallTimer'', timers) := mapSeriesScenarios rest overallTimer' in
      ret (overallTimer'', timer :: timers)
  end.

(** ** [run] (lines 169-288) *)

(** The [try] block of lines 174-181. *)
Definition setUp (p : Parsed) (tokens : gmap string string) : M (SetupError + list Scenario) :=
  match parseScenarioFiles (args_file p) tokens with
  | inl e => ret (inl e)
  | inr scenarios => decorateStepsWithClients scenarios (flags_use_ssl p)
  end.

(** The [catch (e)] block of lines 182-203. *)
Definition reportSetupError (e : SetupError) : M unit :=
  emit (Log "") >>
  emit (Log "Error running scenario:") >>
  emit (LogSetupError e) >>
  (match e with
   | AuthenticationError _ helpUrl =>
       if Js.truthy helpUrl then
         emit (Log "") >>
         emit (Log "Relevant authentication docs for your reference:") >>
         emit (OpenUrl (default "" helpUrl) (default "" helpUrl))
       else ret tt
   | _ => ret tt
   end) >>
  (match e with
   | MissingStepError _ =>
       emit (Log "") >>
       emit (Log "Run the following to list available steps") >>
       emit (Log "  crank registry:steps")
   | _ => ret tt
   end) >>
  setExitCode 1.

(** The overall Timer and the scenario Timers a run ends with; [None]
    when the run stopped at the set-up stage. *)
Definition Summary : Type := option (Timer * list Timer).

(** The body of [run] once the command line is parsed. *)
Definition runParsed (p : Parsed) : M Summary :=
  let tokens := parseTokens (default [] (flags_token p)) in
  let* r := setUp p tokens in
  match r with
  | inl e => reportSetupError e >> ret None
  | inr scenarios =>
      let scenarios := map (onScenario coerceStep) scenarios in
      emit NewTimer >>
      let* (overallTimer, timers) := mapSeriesScenarios scenarios newTimer in
      (if Nat.ltb 1 (length scenarios) then
         emit (Log (nl ++ "All Scenarios:")) >>
         emit (PrintTime overallTimer)
       else ret tt) >>
      ret (Some (overallTimer, timers))
  end.

Definition run (argv : list string) : M (Completion * Summary) :=
  match parse argv with
  | None => ret (Threw, None)
  | Some p => let* s := runParsed p in ret (Returned, s)
  end.

(** [init] (lines 161-167): parses the command line; the debug switch
    leaves no trace here. *)
Definition init (argv : list string) : M Completion :=
  match parse argv with
  | None => ret Threw
  | Some _ => ret Returned
  end.

(** ** Teardown *)

(** Modelled from the spec: [CogManager.stopAllCogs] is not among the
    sources.  It ends every live session, best effort: a session that
    does not end cleanly is recorded and nothing is thrown to the
    caller. *)
Fixpoint stopEach (sessions : list Client) : M unit :=
  match sessions with
  | [] => ret tt
  | c :: rest =>
      let* clean := outside (endSession c) in
      emit (CalledStop c clean) >>
      stopEach rest
  end.

(** Modelled from the spec: [stopAllCogs] ends the sessions alive when it
    is called and returns normally. *)
Definition stopAllCogs : M unit :=
  emit CalledStopAllCogs >>
  fun p => stopEach (liveSessions (world p)) p.

(** [finally] (lines 290-292). *)
Definition finally : M unit := stopAllCogs.

(** Modelled from the spec: the command framework that calls the hooks is
    not among the sources.  It runs [init] and [run] inside a scope
    whose release step is [finally], on every exit path. *)
Definition initAndRun (argv : list string) : M (Completion * Summary) :=
  let* i := init argv in
  match i with
  | Threw => ret (Threw, None)
  | Returned => run argv
  end.

(** Modelled from the spec: the whole command, release step included. *)
Definition command (argv : list string) : M (Completion * Summary) :=
  let* r := initAndRun argv in
  finally >>
  ret r.

End Run.

(* ===================================================================== *)
(** * Step-units and the reference walk *)
(* ===================================================================== *)

(** The step-units of a plan element: one for a step, one per member for
    a group. *)
Definition units (el : PlanElement) : nat :=
  match el with
  | Single _ => 1
  | Group step => length step
  end.

Definition totalUnits (plan : list PlanElement) : nat := sum_list_with units plan.

(** The steps of a plan, element after element. *)
Definition members (el : PlanElement) : list RunnerStep :=
  match el with
  | Single s => [s]
  | Group step => step
  end.

Definition planSteps (plan : list PlanElement) : list RunnerStep :=
  concat (map members plan).

(** How many outcomes a thrown value reports to the Timer. *)
Definition reported (e : Thrown) : nat :=
  match e with
  | Responses e => length e
  | _ => 1
  end.

(** The Timer update of [catchStep]. *)
Definition tally (e : Thrown) (timer : Timer) : Timer :=
  match e with
  | Responses e =>
      addFailedStep (length (filter notPassed e))
        (addPassedStep (length e - length (filter notPassed e)) timer)
  | _ => addFailedStep 1 timer
  end.

(** The [innerIndex] a thrown value is rejected with. *)
Definition innerOf (e : Thrown) : nat :=
  match e with
  | Responses e => length e
  | _ => 0
  end.

(** The units [skipFrom] marks as skipped. *)
Fixpoint skipUnits (rest : list PlanElement) (innerIndex : nat) : nat :=
  match rest with
  | [] => 0
  | Group step :: rest' => length (drop innerIndex step) + skipUnits rest' 0
  | Single _ :: rest' => 1 + skipUnits rest' innerIndex
  end.

(** The texts [skipFrom] logs as skipped, in order. *)
Fixpoint skipTexts (rest : list PlanElement) (innerIndex : nat) : list (Js.OneOrMany string) :=
  match rest with
  | [] => []
  | Group step :: rest' => map stepText (drop innerIndex step) ++ skipTexts rest' 0
  | Single s :: rest' => stepText s :: skipTexts rest' innerIndex
  end.

Section Walk.
Context {host : Host}.

(** What the step engine answers for one plan element. *)
Definition settle (el : PlanElement) (w : World) : Settled * World :=
  match el with
  | Single s => runStep s w
  | Group step =>
      match stepRunner step with
      | None => (Rejected (Exception "TypeError"), w)
      | Some runner => runSteps runner w
      end
  end.

(** The plan walked until the first rejection: its position and the
    thrown value, or [None] when every element resolves. *)
Fixpoint walk (plan : list PlanElement) (w : World) : option (nat * Thrown) * World :=
  match plan with
  | [] => (None, w)
  | el :: rest =>
      match settle el w with
      | (Rejected e, w') => (Some (0, e), w')
      | (Resolved, w') =>
          match walk rest w' with
          | (Some (k, e), w'') => (Some (S k, e), w'')
          | (None, w'') => (None, w'')
          end
      end
  end.

(** The walks of a batch, scenario after scenario. *)
Fixpoint walks (scenarios : list Scenario) (w : World)
  : list (option (nat * Thrown)) * World :=
  match scenarios with
  | [] => ([], w)
  | sc :: rest =>
      let (r, w') := walk (optimizedSteps sc) w in
      let (rs, w'') := walks rest w' in
      (r :: rs, w'')
  end.

(** The scenario Timer a walk leaves, cascade included. *)
Definition timerOf (plan : list PlanElement) (r : option (nat * Thrown)) : Timer :=
  match r with
  | None => addPassedStep (totalUnits plan) newTimer
  | Some (k, e) =>
      addSkippedStep (skipUnits (drop k plan) (innerOf e))
        (tally e (addPassedStep (totalUnits (take k plan)) newTimer))
  end.

End Walk.

Section Traces.
Context {host : Host}.

(** The engine call one plan element makes. *)
Definition callEvents (el : PlanElement) (r : Settled) : list Event :=
  match el with
  | Single s => [CalledRunStep s r]
  | Group step =>
      match stepRunner step with
      | Some runner => [CalledRunSteps runner r]
      | None => []
      end
  end.

(** The engine calls of a walk, up to and including the first rejection. *)
Fixpoint walkEvents (plan : list PlanElement) (w : World) : list Event :=
  match plan with
  | [] => []
  | el :: rest =>
      match settle el w with
      | (Rejected e, _) => callEvents el (Rejected e)
      | (Resolved, w') => callEvents el Resolved ++ walkEvents rest w'
      end
  end.

(** The skip lines after a walk. *)
Definition skipEvents (plan : list PlanElement) (r : option (nat * Thrown)) : list Event :=
  match r with
  | None => []
  | Some (k, e) => map LogSkipped (skipTexts (drop k plan) (innerOf e))
  end.

(** Everything one scenario does, from its header to its timing line. *)
Definition scenarioEvents (sc : Scenario) (w : World) : list Event :=
  let plan := optimizedSteps sc in
  let r := (walk plan w).1 in
  [Log (nl ++ name sc ++ nl); NewTimer]
    ++ walkEvents plan w ++ skipEvents plan r ++ [PrintTime (timerOf plan r)].

Fixpoint batchEvents (scenarios : list Scenario) (w : World) : list Event :=
  match scenarios with
  | [] => []
  | sc :: rest =>
      scenarioEvents sc w ++ batchEvents rest (walk (optimizedSteps sc) w).2
  end.

(** The scenario Timers of a batch. *)
Definition timersOf (scenarios : list Scenario) (rs : list (option (nat * Thrown)))
  : list Timer :=
  zip_with (fun sc r => timerOf (optimizedSteps sc) r) scenarios rs.

End Traces.

(** A walk that ended in a rejection. *)
Definition aborted (r : option (nat * Thrown)) : bool :=
  match r with
  | Some _ => true
  | None => false
  end.

(** The overall Timer after the given walks: one unit per scenario. *)
Definition overallOf (rs : list (option (nat * Thrown))) : Timer :=
  {| passed := length (filter (fun r => aborted r = false) rs);
     failed := length (filter (fun r => aborted r = true) rs);
     skipped := 0 |}.

Section Reference.
Context {host : Host}.

(** A process state with a new world and flag and further actions. *)
Definition more (p : Process) (w : World) (flag : option nat) (evs : list Event) : Process :=
  {| world := w; exitCode := flag; output := output p ++ evs |}.

(** The lines of [reportSetupError]. *)
Definition reportLines (e : SetupError) : list Event :=
  [Log ""; Log "Error running scenario:"; LogSetupError e]
    ++ match e with
       | AuthenticationError _ helpUrl =>
           if Js.truthy helpUrl then
             [Log ""; Log "Relevant authentication docs for your reference:";
              OpenUrl (default "" helpUrl) (default "" helpUrl)]
           else []
       | _ => []
       end
    ++ match e with
       | MissingStepError _ =>
           [Log ""; Log "Run the following to list available steps";
            Log "  crank registry:steps"]
       | _ => []
       end.

(** The lines after the batch: the overall summary of several scenarios. *)
Definition closingLines (batch : list Scenario) (overall : Timer) : list Event :=
  if Nat.ltb 1 (length batch) then
    [Log (nl ++ "All Scenarios:"); PrintTime overall]
  else [].

(** The sessions ended one after the other, with how each ended. *)
Fixpoint endAll (sessions : list Client) (w : World) : list (Client * bool) * World :=
  match sessions with
  | [] => ([], w)
  | c :: rest =>
      let (clean, w') := endSession c w in
      let (l, w'') := endAll rest w' in
      ((c, clean) :: l, w'')
  end.

End Reference.

(** The overall Timer after some walks, from any start. *)
Definition overallFrom (rs : list (option (nat * Thrown))) (t : Timer) : Timer :=
  addFailedStep (length (filter (fun r => aborted r = true) rs))
    (addPassedStep (length (filter (fun r => aborted r = false) rs)) t).

(** How many of the outcomes a thrown value reports have not passed. *)
Definition failures (e : Thrown) : nat :=
  match e with
  | Responses e => length (filter notPassed e)
  | _ => 1
  end.

(** The counters of a scenario's own Timer against the step-units of its
    plan: every unit passed when the walk completes; when element [k]
    rejects with [e], the units before it and the passed outcomes of [e]
    as passed, the other outcomes of [e] as failed, and the units the
    cascade walks over as skipped. *)
Definition stepCounts (plan : list PlanElement) (r : option (nat * Thrown)) (t : Timer) : Prop :=
  match r with
  | None => t = {| passed := totalUnits plan; failed := 0; skipped := 0 |}
  | Some (k, e) =>
      passed t = (totalUnits (take k plan) + (reported e - failures e))%nat ∧
      failed t = failures e ∧
      skipped t = skipUnits (drop k plan) (innerOf e) ∧
      (∀ step rs, plan !! k = Some (Group step) → e = Responses rs →
         (length rs ≤ length step)%nat → counted t = totalUnits plan) ∧
      (∀ s, plan !! k = Some (Single s) → (∀ rs, e ≠ Responses rs) →
         failed t = 1 ∧ skipped t = totalUnits (drop k plan) ∧
         counted t = (totalUnits plan + 1)%nat)
  end.


(** Actions that only report: log lines and opened links. *)
Definition isReport (ev : Event) : bool :=
  match ev with
  | Log _ | LogSetupError _ | OpenUrl _ _ => true
  | _ => false
  end.

Definition isErrorLine (ev : Event) : bool :=
  match ev with
  | LogSetupError _ => true
  | _ => false
  end.

Definition isLine (line : string) (ev : Event) : bool :=
  match ev with
  | Log l => String.eqb l line
  | _ => false
  end.

Definition isStopAll (ev : Event) : bool :=
  match ev with
  | CalledStopAllCogs => true
  | _ => false
  end.

(** The sessions torn down, with how each ended. *)
Definition stopEvents (l : list (Client * bool)) : list Event :=
  map (fun cb => CalledStop cb.1 cb.2) l.

(** The exit-status flag after the given walks. *)
Definition flagAfter (rs : list (option (nat * Thrown))) (before : option nat) : option nat :=
  if existsb aborted rs then Some 1 else before.

(** The empty-directory rule as first worded: a directory below which
    the pattern [<path>/**/*.crank.yml], the path taken as given, matches
    no file makes [parseScenarioFiles] throw. *)
Definition empty_directory_always_throws : Prop :=
  ∀ (host : Host) (fileOrDirectory : string) (tokens : gmap string string),
    lstat_isDirectory fileOrDirectory = Some true →
    glob_sync (fileOrDirectory ++ "/**/*.crank.yml") = [] →
    parseScenarioFiles fileOrDirectory tokens
    = inl (Error ("No .crank.yml files found in " ++ fileOrDirectory)).

(** The exit-flag rule as first worded, for a set-up error as for a failed
    step: once the scenarios are parsed, every one of them runs to
    completion and leaves its Timer, whatever fails. *)
Definition batch_completes_after_any_failure : Prop :=
  ∀ (host : Host) (p : Parsed) (proc : Process) (scenarios : list Scenario),
    parseScenarioFiles (args_file p) (parseTokens (default [] (flags_token p)))
    = inr scenarios →
    ∃ overall timers,
      (runParsed p proc).1 = Some (overall, timers) ∧ length timers = length scenarios.

(* ===================================================================== *)
(** * The plan optimizer *)
(* ===================================================================== *)

(** Modelled from the spec: [Scenario.optimizedSteps] is not among the
    sources.  The parser hands the optimizer the step list as
    already-delimited runs: a step on its own, or a run of consecutive
    steps marked parallel-eligible. *)
Inductive DelimitedRun :=
| Alone (s : RunnerStep)
| Marked (run : list RunnerStep).

(** The flat Step list behind the delimited runs. *)
Definition flatSteps (runs : list DelimitedRun) : list RunnerStep :=
  concat (map (fun r => match r with Alone s => [s] | Marked run => run end) runs).

(** Modelled from the spec: each marked run becomes one Step Group, every
    other step one element, in the order given. *)
Definition optimize (runs : list DelimitedRun) : list PlanElement :=
  map (fun r => match r with Alone s => Single s | Marked run => Group run end) runs.

(** The operation descriptors and display texts a plan element hands to
    the step engine: the step itself for [runStep], the merged runner step
    for [runSteps]. *)
Definition executedProtoSteps (el : PlanElement) : list (option ProtoStep) :=
  match el with
  | Single s => map Some (protoSteps s)
  | Group step =>
      match stepRunner step with
      | Some runner => runner_protoSteps runner
      | None => []
      end
  end.

Definition executedTexts (el : PlanElement) : list (option string) :=
  match el with
  | Single s => map Some (Js.values (stepText s))
  | Group step =>
      match stepRunner step with
      | Some runner => runner_stepText runner
      | None => []
      end
  end.

(** The descriptors and texts of a flat Step list. *)
Definition flatProtoSteps (l : list RunnerStep) : list (option ProtoStep) :=
  map Some (concat (map protoSteps l)).

Definition flatTexts (l : list RunnerStep) : list (option string) :=
  map Some (concat (map (fun s => Js.values (stepText s)) l)).

(** A Step as the data model has it before merging: one operation
    descriptor and one display text (more than one only for the merged
    representative of a group). *)
Definition unmerged (s : RunnerStep) : Prop :=
  length (protoSteps s) = 1 ∧ length (Js.values (stepText s)) = 1.

(** The members of the marked runs. *)
Definition markedSteps (runs : list DelimitedRun) : list RunnerStep :=
  concat (map (fun r => match r with Alone _ => [] | Marked run => run end) runs).

(* ===================================================================== *)
(** * A small host to run the command on *)
(* ===================================================================== *)

Module Demo.

Definition respond (p : ProtoStep) : Outcome :=
  if decide (stepId p = "fails") then FAILED
  else if decide (stepId p = "errors") then ERROR
  else PASSED.

Definition response (o : Outcome) : RunStepResponse :=
  {| getOutcome := o; getMessage := "" |}.

(** A step engine after section 4.3 of the specification. *)
Definition runStep (s : RunnerStep) (w : unit) : Settled * unit :=
  match filter notPassed (map (fun p => response (respond p)) (protoSteps s)) with
  | [] => (Resolved, w)
  | r :: _ => (Rejected (Response r), w)
  end.

Definition runSteps (r : StepRunner) (w : unit) : Settled * unit :=
  let rs := map (fun o => match o with
                          | Some p => response (respond p)
                          | None => response ERROR
                          end) (runner_protoSteps r) in
  if decide (Exists notPassed rs) then (Rejected (Responses rs), w) else (Resolved, w).

Definition step (id text : string) : RunnerStep :=
  {| cog := "demo"; protoSteps := [{| stepId := id; data := [] |}];
     stepText := Js.One text; client := None; waitFor := [0]; failAfter := [0] |}.

Definition A : RunnerStep := step "fails" "A".
Definition B : RunnerStep := step "ok" "B".
Definition C : RunnerStep := step "ok" "C".
Definition D : RunnerStep :=
  {| cog := "other"; protoSteps := [{| stepId := "ok"; data := [] |}];
     stepText := Js.One "D"; client := None; waitFor := [100]; failAfter := [0] |}.
Definition E : RunnerStep :=
  {| cog := "demo"; protoSteps := [{| stepId := "fails"; data := [] |}];
     stepText := Js.One "E"; client := None; waitFor := [0]; failAfter := [50] |}.

Definition scenarioAB : Scenario :=
  {| name := "A then B"; file := "/suite/ab.crank.yml";
     steps := [A; B]; optimizedSteps := [Single A; Single B] |}.

Definition scenarioBA : Scenario :=
  {| name := "B then A"; file := "/suite/ba.crank.yml";
     steps := [B; A]; optimizedSteps := [Single B; Single A] |}.

Definition scenarioCDE : Scenario :=
  {| name := "C, D, E together"; file := "/suite/cde.crank.yml";
     steps := [C; D; E]; optimizedSteps := [Group [C; D; E]] |}.

Definition scenarioBCD : Scenario :=
  {| name := "B, then C and D"; file := "/suite/bcd.crank.yml";
     steps := [B; C; D]; optimizedSteps := [Single B; Group [C; D]] |}.

Definition secureStep : RunnerStep :=
  {| cog := "secure"; protoSteps := [{| stepId := "ok"; data := [] |}];
     stepText := Js.One "S"; client := None; waitFor := [0]; failAfter := [0] |}.

Definition scenarioSecure : Scenario :=
  {| name := "needs credentials"; file := "secure.crank.yml";
     steps := [secureStep]; optimizedSteps := [Single secureStep] |}.

Definition newScenario (fromFile : string) (tokens : gmap string string)
  : SetupError + Scenario :=
  if decide (fromFile = "/suite/ba.crank.yml") then inr scenarioBA
  else if decide (fromFile = "/suite/bcd.crank.yml") then inr scenarioBCD
  else if decide (fromFile = "ab.crank.yml") then inr scenarioAB
  else if decide (fromFile = "cde.crank.yml") then inr scenarioCDE
  else if decide (fromFile = "bcd.crank.yml") then inr scenarioBCD
  else if decide (fromFile = "secure.crank.yml") then inr scenarioSecure
  else if decide (fromFile = "unknown.crank.yml") then
    inl (MissingStepError "Missing step definition")
  else inl (Error "ENOENT").

Definition startCogs (l : list RunnerStep) (useSsl : bool) (w : unit)
  : (SetupError + (string → Client)) * unit :=
  if decide (Exists (fun s => cog s = "secure") l) then
    (inl (AuthenticationError "bad credentials" (Some "https://example.test/auth")), w)
  else (inr (fun c => Handle (String.length c)), w).

Definition parse (argv : list string) : option Parsed :=
  match argv with
  | [] => None
  | f :: rest =>
      Some {| args_file := f;
              flags_token := match rest with [] => None | _ => Some rest end;
              flags_use_ssl := false |}
  end.

Definition lstat_isDirectory (p : string) : option bool :=
  if decide (p = "suite") then Some true
  else if decide (p = "empty") then Some true
  else if decide (p = "gone.crank.yml") then None
  else Some false.

Definition glob_sync (pattern : string) : list string :=
  if decide (pattern = "suite/**/*.crank.yml") then
    ["/suite/ba.crank.yml"; "/suite/bcd.crank.yml"]
  else [].

Definition endSession (c : Client) (w : unit) : bool * unit :=
  (bool_decide (c ≠ Handle 1), w).

Definition host : Host :=
  Build_Host unit parse lstat_isDirectory glob_sync newScenario startCogs
    (fun p _ => p) runStep runSteps (fun _ => [Handle 0; Handle 1]) endSession.

(** A fresh process: no exit code set, nothing done yet. *)
Definition start : @Process host := @Build_Process host tt None [].

End Demo.

(* ===================================================================== *)
(** * Further notions for [run.ts] *)
(* ===================================================================== *)

(** Does the text hold the character? *)
Fixpoint hasChar (c : ascii) (s : string) : bool :=
  match s with
  | EmptyString => false
  | String d r => if decide (d = c) then true else hasChar c r
  end.

(** A token entry as [parseTokens] can produce it: a non-empty name other
    than [__proto__], a non-empty value, no ['='] in either. *)
Definition plainEntry (k v : string) : Prop :=
  k ≠ "" ∧ v ≠ "" ∧ k ≠ "__proto__" ∧
  hasChar "="%char k = false ∧ hasChar "="%char v = false.

(** The raw flag value [name=value] of an entry. *)
Definition rawToken (kv : string * string) : string := kv.1 ++ "=" ++ kv.2.

(** The raw flag values of a mapping, one per entry. *)
Definition rawTokens (m : gmap string string) : list string :=
  rawToken <$> map_to_list m.

(** What an action hands to the step engine, if anything. *)
Definition callOfEvent (ev : Event) : option (RunnerStep + StepRunner) :=
  match ev with
  | CalledRunStep s _ => Some (inl s)
  | CalledRunSteps r _ => Some (inr r)
  | _ => None
  end.

(** What a plan element hands to the step engine, if anything. *)
Definition callOf (el : PlanElement) : option (RunnerStep + StepRunner) :=
  match el with
  | Single s => Some (inl s)
  | Group step => inr <$> stepRunner step
  end.

(** The text an action logs as skipped, if any. *)
Definition skippedOfEvent (ev : Event) : option (Js.OneOrMany string) :=
  match ev with
  | LogSkipped t => Some t
  | _ => None
  end.

(** The elements a walk reaches: all of them, or those up to the one that
    rejects. *)
Definition reached (plan : list PlanElement) (r : option (nat * Thrown)) : list PlanElement :=
  match r with
  | None => plan
  | Some (k, _) => take (S k) plan
  end.

(** The single steps a list of plan elements starts with, and the list
    from its first group on. *)
Fixpoint leadingSingles (rest : list PlanElement) : list RunnerStep :=
  match rest with
  | Single s :: rest' => s :: leadingSingles rest'
  | _ => []
  end.

Fixpoint fromFirstGroup (rest : list PlanElement) : list PlanElement :=
  match rest with
  | Single _ :: rest' => fromFirstGroup rest'
  | _ => rest
  end.

(** The actions added to a trace. *)
Definition added (before after : list Event) : list Event :=
  drop (length before) after.

(* ===================================================================== *)
(** * The [cog:scaffold] command ([src/commands/cog/scaffold.ts]) *)
(* ===================================================================== *)

Module Scaffold.

(** The parsed flags (lines 12-32).  [output-directory] has a default, so
    it is always there; [include-example-step] is an own property only
    when [--include-example-step] or [--no-include-example-step] is
    given. *)
Record Flags := {
  language : option string;
  output_directory : string;
  name : option string;
  org : option string;
  include_example_step : option bool;
}.

(** The [type] of a question: [input], [list] or [confirm]. *)
Inductive QuestionType := typeInput | typeList | typeConfirm.

(** The [default] of a question. *)
Inductive Default :=
| NoDefault
| DefaultText (s : string)
| DefaultYesNo (b : bool).

(** The object handed to [inquirer.prompt]. *)
Record Question := {
  q_name : string;
  q_type : QuestionType;
  q_message : string;
  q_default : Default;
  q_choices : option (list string);
}.

(** [Scaffold.flags.language.options] (line 15). *)
Definition languageOptions : list string := ["typescript"].

Definition nameQuestion : Question :=
  {| q_name := "name"; q_type := typeInput;
     q_message := "What's your Cog connecting to (e.g. Salesforce)?";
     q_default := NoDefault; q_choices := None |}.

Definition orgQuestion : Question :=
  {| q_name := "org"; q_type := typeInput;
     q_message := "What's your organization's docker hub name?";
     q_default := DefaultText "automatoninc"; q_choices := None |}.

Definition languageQuestion : Question :=
  {| q_name := "language"; q_type := typeList;
     q_message := "What language will you use to build your cog?";
     q_default := NoDefault; q_choices := Some languageOptions |}.

Definition exampleQuestion : Question :=
  {| q_name := "includeExampleStep"; q_type := typeConfirm;
     q_message := "Would you like to include an example step in the generated code?";
     q_default := DefaultYesNo false; q_choices := None |}.

(** What the command calls outside [scaffold.ts]. *)
Class Console := {
  (** the terminal, the file system and everything else outside *)
  Terminal : Type;
  (** [this.parse(Scaffold)]; [None] when the parser throws *)
  parse : list string → option Flags;
  (** [inquirer.prompt] for an [input] or [list] question: the text read
      off the answers object under the question's name *)
  askText : Question → Terminal → string * Terminal;
  (** [inquirer.prompt] for a [confirm] question *)
  askYesNo : Question → Terminal → bool * Terminal;
  (** [new CogGenerator().generate(flags)], which may throw *)
  generate : Flags → Terminal → Completion * Terminal;
}.

(** What the command does, in order. *)
Inductive Action :=
| Asked (q : Question)
| Generated (flags : Flags).

Section Command.
Context {console : Console}.

Record State := {
  terminal : Terminal;
  actions : list Action;
}.

Definition promptText (q : Question) (st : State) : string * State :=
  let (a, t) := askText q (terminal st) in
  (a, {| terminal := t; actions := actions st ++ [Asked q] |}).

Definition promptYesNo (q : Question) (st : State) : bool * State :=
  let (a, t) := askYesNo q (terminal st) in
  (a, {| terminal := t; actions := actions st ++ [Asked q] |}).

(** Lines 37-44: [if (!flags.name) { ...; flags.name = inquiry.name }]. *)
Definition fillName (flags : Flags) (st : State) : Flags * State :=
  if negb (Js.truthy (name flags)) then
    let (a, st') := promptText nameQuestion st in
    ({| language := language flags; output_directory := output_directory flags;
        name := Some a; org := org flags;
        include_example_step := include_example_step flags |}, st')
  else (flags, st).

(** Lines 46-54. *)
Definition fillOrg (flags : Flags) (st : State) : Flags * State :=
  if negb (Js.truthy (org flags)) then
    let (a, st') := promptText orgQuestion st in
    ({| language := language flags; output_directory := output_directory flags;
        name := name flags; org := Some a;
        include_example_step := include_example_step flags |}, st')
  else (flags, st).

(** Lines 56-64. *)
Definition fillLanguage (flags : Flags) (st : State) : Flags * State :=
  if negb (Js.truthy (language flags)) then
    let (a, st') := promptText languageQuestion st in
    ({| language := Some a; output_directory := output_directory flags;
        name := name flags; org := org flags;
        include_example_step := include_example_step flags |}, st')
  else (flags, st).

(** Lines 66-74: [if (!flags.hasOwnProperty('include-example-step'))]. *)
Definition fillExample (flags : Flags) (st : State) : Flags * State :=
  match include_example_step flags with
  | Some _ => (flags, st)
  | None =>
      let (a, st') := promptYesNo exampleQuestion st in
      ({| language := language flags; output_directory := output_directory flags;
          name := name flags; org := org flags;
          include_example_step := Some a |}, st')
  end.

(** [run] (lines 34-78). *)
Definition run (argv : list string) (st : State) : Completion * State :=
  match parse argv with
  | None => (Threw, st)
  | Some flags =>
      let (flags1, st1) := fillName flags st in
      let (flags2, st2) := fillOrg flags1 st1 in
      let (flags3, st3) := fillLanguage flags2 st2 in
      let (flags4, st4) := fillExample flags3 st3 in
      let (c, t) := generate flags4 (terminal st4) in
      (c, {| terminal := t; actions := actions st4 ++ [Generated flags4] |})
  end.

(** The terminal after the name question, after the organization
    question and after the language question, each asked only when its
    flag is open. *)
Definition afterName (flags : Flags) (t : Terminal) : Terminal :=
  if Js.truthy (name flags) then t else (askText nameQuestion t).2.

Definition afterOrg (flags : Flags) (t : Terminal) : Terminal :=
  if Js.truthy (org flags) then afterName flags t
  else (askText orgQuestion (afterName flags t)).2.

Definition afterLanguage (flags : Flags) (t : Terminal) : Terminal :=
  if Js.truthy (language flags) then afterOrg flags t
  else (askText languageQuestion (afterOrg flags t)).2.

End Command.

(** The questions among some actions, and the flags handed to the
    generator. *)
Definition questions (l : list Action) : list Question :=
  omap (fun a => match a with Asked q => Some q | _ => None end) l.

Definition handed (l : list Action) : list Flags :=
  omap (fun a => match a with Generated f => Some f | _ => None end) l.

(** The questions the parsed flags leave open, in the order of the
    source. *)
Definition openQuestions (flags : Flags) : list Question :=
  (if Js.truthy (name flags) then [] else [nameQuestion])
    ++ (if Js.truthy (org flags) then [] else [orgQuestion])
    ++ (if Js.truthy (language flags) then [] else [languageQuestion])
    ++ (match include_example_step flags with Some _ => [] | None => [exampleQuestion] end).

(** Each field of the flags handed to the generator is the parsed flag
    when that one is given, and an answer otherwise. *)
Definition filled (flags final : Flags) : Prop :=
  output_directory final = output_directory flags ∧
  (if Js.truthy (name flags) then name final = name flags
   else is_Some (name final)) ∧
  (if Js.truthy (org flags) then org final = org flags
   else is_Some (org final)) ∧
  (if Js.truthy (language flags)
   then language final = language flags
   else is_Some (language final)) ∧
  (match include_example_step flags with
   | Some b => include_example_step final = Some b
   | None => is_Some (include_example_step final)
   end).

(** A console that answers every question the same way. *)
Definition demoConsole : Console :=
  Build_Console unit
    (fun argv =>
       match argv with
       | [] => Some {| language := None; output_directory := "/work"; name := None;
                       org := None; include_example_step := None |}
       | n :: _ =>
           if decide (n = "--bad") then None
           else Some {| language := Some "typescript"; output_directory := "/work";
                        name := Some n; org := Some "acme";
                        include_example_step := Some false |}
       end)
    (fun q w =>
       (if decide (q_name q = "name") then "Salesforce"
        else if decide (q_name q = "org") then "automatoninc"
        else "typescript", w))
    (fun q w => (true, w))
    (fun f w => (Returned, w)).

Definition demoStart : @State demoConsole := @Build_State demoConsole tt [].

(** A console on which every text question is answered with the empty
    string, the command line giving a name. *)
Definition silentConsole : Console :=
  Build_Console unit
    (fun argv =>
       Some {| language := None; output_directory := "/work"; name := Some "Zendesk";
               org := None; include_example_step := None |})
    (fun q w => ("", w))
    (fun q w => (false, w))
    (fun f w => (Returned, w)).

Definition silentStart : @State silentConsole := @Build_State silentConsole tt [].

End Scaffold.

(* ===================================================================== *)
(** * Scenario files and a folder with a broken file *)
(* ===================================================================== *)

(** The files [parseScenarioFiles] builds scenarios from: the matches of
    the glob below a directory, the path itself otherwise. *)
Definition scenarioFilesOf {host : Host} (fileOrDirectory : string) : list string :=
  match lstat_isDirectory fileOrDirectory with
  | Some true => glob_sync (Js.replace_backslashes fileOrDirectory ++ "/**/*.crank.yml")
  | _ => [fileOrDirectory]
  end.

Module Folder.

Definition lstat_isDirectory (p : string) : option bool :=
  if decide (p = "mixed") then Some true else Demo.lstat_isDirectory p.

Definition glob_sync (pattern : string) : list string :=
  if decide (pattern = "mixed/**/*.crank.yml") then
    ["/suite/ba.crank.yml"; "unknown.crank.yml"; "gone.crank.yml"]
  else Demo.glob_sync pattern.

(** The demonstration host with one more folder, whose second file names
    an unknown step and whose third file is missing. *)
Definition host : Host :=
  Build_Host unit Demo.parse lstat_isDirectory glob_sync Demo.newScenario Demo.startCogs
    (fun p _ => p) Demo.runStep Demo.runSteps (fun _ => [Handle 0; Handle 1])
    Demo.endSession.

Definition start : @Process host := @Build_Process host tt None [].

End Folder.

Module Backslash.

Definition lstat_isDirectory (p : string) : option bool :=
  if decide (p = "win\dir") then Some true else Demo.lstat_isDirectory p.

Definition glob_sync (pattern : string) : list string :=
  if decide (pattern = "win/dir/**/*.crank.yml") then ["/suite/bcd.crank.yml"]
  else Demo.glob_sync pattern.

(** The demonstration host on a file system where a backslash is an
    ordinary character of a name: the directory [win\dir] holds no
    scenario file, the directory [dir] inside [win] holds one. *)
Definition host : Host :=
  Build_Host unit Demo.parse lstat_isDirectory glob_sync Demo.newScenario Demo.startCogs
    (fun p _ => p) Demo.runStep Demo.runSteps (fun _ => [Handle 0; Handle 1])
    Demo.endSession.

Definition start : @Process host := @Build_Process host tt None [].

End Backslash.

Module Arrays.

(** A step engine whose [runStep] rejects with an array of two
    responses, as [runSteps] does. *)
Definition runStep (s : RunnerStep) (w : unit) : Settled * unit :=
  (Rejected (Responses [Demo.response FAILED; Demo.response FAILED]), w).

Definition host : Host :=
  Build_Host unit Demo.parse Demo.lstat_isDirectory Demo.glob_sync Demo.newScenario
    Demo.startCogs (fun p _ => p) runStep Demo.runSteps (fun _ => [Handle 0; Handle 1])
    Demo.endSession.

Definition start : @Process host := @Build_Process host tt None [].

Definition scenarioBCDE : Scenario :=
  {| name := "B, then C, D and E"; file := "bcde.crank.yml";
     steps := [Demo.B; Demo.C; Demo.D; Demo.E];
     optimizedSteps := [Single Demo.B; Group [Demo.C; Demo.D; Demo.E]] |}.

End Arrays.

(* ===================================================================== *)
(** * Theorems *)
(* ===================================================================== *)

Local Close Scope string_scope.
Local Open Scope nat_scope.

(** ** Timers *)

Lemma Timer_eq (a b : Timer) :
  passed a = passed b → failed a = failed b → skipped a = skipped b → a = b.
Proof. destruct a, b; simpl; congruence. Qed.

Lemma addSkippedStep_twice a b t :
  addSkippedStep a (addSkippedStep b t) = addSkippedStep (b + a) t.
Proof. apply Timer_eq; simpl; lia. Qed.

Lemma addSkippedStep_zero t : addSkippedStep 0 t = t.
Proof. apply Timer_eq; simpl; lia. Qed.

Lemma addPassedStep_twice a b t :
  addPassedStep a (addPassedStep b t) = addPassedStep (b + a) t.
Proof. apply Timer_eq; simpl; lia. Qed.

Lemma addPassedStep_zero t : addPassedStep 0 t = t.
Proof. apply Timer_eq; simpl; lia. Qed.

Lemma filter_notPassed_le (e : list RunStepResponse) :
  length (filter notPassed e) ≤ length e.
Proof. apply length_filter. Qed.

Lemma tally_counts e t :
  passed (tally e t) + failed (tally e t) = passed t + failed t + reported e
  ∧ skipped (tally e t) = skipped t.
Proof.
  destruct e as [rs | r | m]; simpl; try lia.
  pose proof (filter_notPassed_le rs). lia.
Qed.

(** ** The monad *)

Section Coordinator.
Context {host : Host}.


Lemma more_more p w f evs w' f' evs' :
  more (more p w f evs) w' f' evs' = more p w' f' (evs ++ evs').
Proof. unfold more; simpl. by rewrite app_assoc. Qed.

Lemma more_nil p : more p (world p) (exitCode p) [] = p.
Proof. destruct p; unfold more; simpl. by rewrite app_nil_r. Qed.

Ltac step_m :=
  unfold bind, ret, emit, setExitCode, outside; simpl.

(** ** The cascade *)

Lemma skipEach_spec ms t p :
  skipEach ms t p =
  (addSkippedStep (length ms) t,
   more p (world p) (exitCode p) (map (fun s => LogSkipped (stepText s)) ms)).
Proof.
  revert t p. induction ms as [| s ms IH]; intros t p; simpl.
  - step_m. by rewrite addSkippedStep_zero, more_nil.
  - step_m. rewrite IH. simpl. rewrite addSkippedStep_twice.
    f_equal. unfold more; simpl. by rewrite <- app_assoc.
Qed.

Lemma skipFrom_spec rest inner t p :
  skipFrom rest inner t p =
  (addSkippedStep (skipUnits rest inner) t,
   more p (world p) (exitCode p) (map LogSkipped (skipTexts rest inner))).
Proof.
  revert inner t p. induction rest as [| el rest IH]; intros inner t p; simpl.
  - step_m. by rewrite addSkippedStep_zero, more_nil.
  - destruct el as [s | step].
    + step_m. rewrite IH. simpl. rewrite addSkippedStep_twice.
      f_equal. unfold more; simpl. by rewrite <- app_assoc.
    + unfold bind. rewrite skipEach_spec. rewrite IH. simpl.
      rewrite addSkippedStep_twice, more_more. simpl.
      rewrite map_app, map_map. done.
Qed.

(** ** One element, one plan *)

Lemma catchStep_spec e index t p :
  catchStep e index t p =
  ((tally e t, Some {| innerIndex := innerOf e; stepIndex := index |}),
   more p (world p) (Some 1) []).
Proof.
  unfold catchStep. step_m. unfold more; simpl. rewrite app_nil_r.
  by destruct e.
Qed.

Lemma runElement_spec el index t p :
  runElement el index t p =
  match settle el (world p) with
  | (Resolved, w) =>
      ((addPassedStep (units el) t, None),
       more p w (exitCode p) (callEvents el Resolved))
  | (Rejected e, w) =>
      ((tally e t, Some {| innerIndex := innerOf e; stepIndex := index |}),
       more p w (Some 1) (callEvents el (Rejected e)))
  end.
Proof.
  destruct el as [s | step]; simpl.
  - unfold bind, outside. destruct (runStep s (world p)) as [[| e] w]; simpl.
    + done.
    + unfold emit; simpl. rewrite catchStep_spec.
      unfold more; simpl. by rewrite app_nil_r.
  - unfold callEvents. destruct (stepRunner step) as [runner |] eqn:Hr.
    + unfold bind, outside. destruct (runSteps runner (world p)) as [[| e] w]; simpl.
      * done.
      * unfold emit; simpl. rewrite catchStep_spec.
        unfold more; simpl. by rewrite app_nil_r.
    + by rewrite catchStep_spec.
Qed.

Lemma totalUnits_cons el plan : totalUnits (el :: plan) = units el + totalUnits plan.
Proof. reflexivity. Qed.

Lemma mapSeriesSteps_spec plan index t p :
  mapSeriesSteps plan index t p =
  match walk plan (world p) with
  | (None, w) =>
      ((addPassedStep (totalUnits plan) t, None),
       more p w (exitCode p) (walkEvents plan (world p)))
  | (Some (k, e), w) =>
      ((tally e (addPassedStep (totalUnits (take k plan)) t),
        Some {| innerIndex := innerOf e; stepIndex := index + k |}),
       more p w (Some 1) (walkEvents plan (world p)))
  end.
Proof.
  revert index t p. induction plan as [| el plan IH]; intros index t p.
  - simpl. unfold ret. by rewrite addPassedStep_zero, more_nil.
  - cbn [mapSeriesSteps walk walkEvents]. unfold bind at 1.
    rewrite runElement_spec.
    destruct (settle el (world p)) as [[| e] w] eqn:Hs.
    + rewrite IH. cbn [world more exitCode].
      destruct (walk plan w) as [[[k e] |] w'].
      * rewrite more_more. cbn [take]. rewrite totalUnits_cons, addPassedStep_twice.
        by replace (S index + k) with (index + S k) by lia.
      * rewrite more_more. by rewrite totalUnits_cons, addPassedStep_twice.
    + unfold ret. cbn [take]. unfold totalUnits; simpl.
      rewrite addPassedStep_zero. by replace (index + 0) with index by lia.
Qed.

(** ** One scenario, one batch *)

Lemma runScenario_spec sc overall p :
  runScenario sc overall p =
  let r := (walk (optimizedSteps sc) (world p)).1 in
  ((if aborted r then addFailedStep 1 overall else addPassedStep 1 overall,
    timerOf (optimizedSteps sc) r),
   more p (walk (optimizedSteps sc) (world p)).2
     (if aborted r then Some 1 else exitCode p)
     (scenarioEvents sc (world p))).
Proof.
  unfold runScenario, scenarioEvents. unfold bind at 1 2 3. unfold emit at 1 2.
  cbn [world exitCode output]. rewrite mapSeriesSteps_spec. cbn [world].
  destruct (walk (optimizedSteps sc) (world p)) as [[[k e] |] w]; cbn [fst snd aborted].
  - unfold bind at 1 2. rewrite skipFrom_spec. unfold ret, emit, bind.
    cbn [world exitCode output more timerOf skipEvents stepIndex innerIndex].
    f_equal. unfold more. cbn [output]. f_equal.
    rewrite <- !app_assoc. reflexivity.
  - unfold ret, emit, bind.
    cbn [world exitCode output more timerOf skipEvents].
    f_equal. unfold more. cbn [output]. f_equal.
    rewrite <- !app_assoc. reflexivity.
Qed.


Lemma mapSeriesScenarios_spec scs overall p :
  mapSeriesScenarios scs overall p =
  let rs := (walks scs (world p)).1 in
  ((overallFrom rs overall, timersOf scs rs),
   more p (walks scs (world p)).2 (flagAfter rs (exitCode p)) (batchEvents scs (world p))).
Proof.
  revert overall p. induction scs as [| sc scs IH]; intros overall p.
  - simpl. unfold ret, overallFrom, flagAfter; simpl.
    rewrite more_nil. f_equal. f_equal. apply Timer_eq; simpl; lia.
  - cbn [mapSeriesScenarios walks batchEvents]. unfold bind at 1.
    rewrite runScenario_spec. cbn zeta.
    unfold bind at 1. rewrite IH. cbn zeta. cbn [world exitCode more].
    destruct (walk (optimizedSteps sc) (world p)) as [r w] eqn:Hw. cbn [fst snd].
    destruct (walks scs w) as [rs w'] eqn:Hws. cbn [fst snd].
    unfold ret. rewrite more_more. f_equal.
    + f_equal. unfold overallFrom. destruct r as [[k e] |]; cbn [aborted].
      * rewrite !filter_cons. cbn [aborted].
        destruct (decide (true = true)); [| done].
        destruct (decide (true = false)); [done |].
        apply Timer_eq; simpl; lia.
      * rewrite !filter_cons. cbn [aborted].
        destruct (decide (false = false)); [| done].
        destruct (decide (false = true)); [done |].
        apply Timer_eq; simpl; lia.
    + f_equal. unfold flagAfter. destruct r as [[k e] |]; cbn [aborted existsb orb].
      * by destruct (existsb aborted rs).
      * done.
Qed.

Lemma overallFrom_newTimer rs : overallFrom rs newTimer = overallOf rs.
Proof. apply Timer_eq; reflexivity. Qed.

(** ** The set-up stage and the whole run *)

Lemma setUp_quiet p tokens proc r proc1 :
  setUp p tokens proc = (r, proc1) →
  output proc1 = output proc ∧ exitCode proc1 = exitCode proc.
Proof.
  unfold setUp, decorateStepsWithClients, bind, outside, ret.
  destruct (parseScenarioFiles (args_file p) tokens) as [e | scs].
  - intros [= <- <-]. done.
  - destruct (startCogs _ _ _) as [[e | sessions] w]; intros [= <- <-]; done.
Qed.


Lemma reportSetupError_spec e p :
  reportSetupError e p = (tt, more p (world p) (Some 1) (reportLines e)).
Proof.
  unfold reportSetupError, reportLines, bind, emit, setExitCode, ret, more.
  destruct e as [m [u |] | m | m]; cbn [output world exitCode];
    try destruct (Js.truthy (Some u)); cbn [output world exitCode];
    rewrite <- ?app_assoc; reflexivity.
Qed.

Lemma runParsed_error p proc e proc1 :
  setUp p (parseTokens (default [] (flags_token p))) proc = (inl e, proc1) →
  runParsed p proc = (None, more proc1 (world proc1) (Some 1) (reportLines e)).
Proof.
  intros H. unfold runParsed. cbn zeta. unfold bind at 1. rewrite H.
  unfold bind. rewrite reportSetupError_spec. reflexivity.
Qed.


Lemma runParsed_batch p proc scs proc1 :
  setUp p (parseTokens (default [] (flags_token p))) proc = (inr scs, proc1) →
  runParsed p proc =
  let batch := map (onScenario coerceStep) scs in
  let rs := (walks batch (world proc1)).1 in
  (Some (overallOf rs, timersOf batch rs),
   more proc1 (walks batch (world proc1)).2 (flagAfter rs (exitCode proc1))
     ([NewTimer] ++ batchEvents batch (world proc1) ++ closingLines batch (overallOf rs))).
Proof.
  intros H. unfold runParsed. cbn zeta. unfold bind at 1. rewrite H.
  unfold bind at 1. unfold emit at 1. unfold bind at 1.
  rewrite mapSeriesScenarios_spec. cbn zeta. cbn [world exitCode].
  rewrite overallFrom_newTimer. unfold closingLines.
  destruct (Nat.ltb 1 (length (map (onScenario coerceStep) scs))).
  - unfold bind, emit, ret, more. cbn [world exitCode output].
    f_equal. f_equal. rewrite <- !app_assoc. reflexivity.
  - unfold bind, emit, ret, more. cbn [world exitCode output].
    f_equal. f_equal. rewrite <- !app_assoc. by rewrite app_nil_r.
Qed.

(** ** Counting the units of a walk *)

Lemma skipUnits_zero rest : skipUnits rest 0 = totalUnits rest.
Proof.
  induction rest as [| [s | step] rest IH]; [done | |].
  - rewrite totalUnits_cons. simpl. by rewrite IH.
  - rewrite totalUnits_cons. simpl. rewrite drop_0. by rewrite IH.
Qed.

Lemma totalUnits_take_drop k plan :
  totalUnits plan = totalUnits (take k plan) + totalUnits (drop k plan).
Proof.
  unfold totalUnits. by rewrite <- sum_list_with_app, take_drop.
Qed.

Lemma walk_Some plan w k e w' :
  walk plan w = (Some (k, e), w') →
  ∃ el w0, plan !! k = Some el ∧ settle el w0 = (Rejected e, w').
Proof.
  revert w k. induction plan as [| el plan IH]; intros w k; simpl; [done |].
  destruct (settle el w) as [[| e0] w1] eqn:Hs.
  - destruct (walk plan w1) as [[[k1 e1] |] w2] eqn:Hw; [| done].
    intros [= <- <- <-]. destruct (IH _ _ Hw) as (el' & w0 & Hl & Hs').
    exists el', w0. done.
  - intros [= <- <- <-]. exists el, w. done.
Qed.

Lemma drop_lookup_cons (plan : list PlanElement) k el :
  plan !! k = Some el → drop k plan = el :: drop (S k) plan.
Proof.
  revert k. induction plan as [| x plan IH]; intros [| k]; simpl; try done.
  - intros [= ->]. by rewrite drop_0.
  - apply IH.
Qed.

(** A step on its own that fails is counted as failed and, being the
    first element of the cascade, as skipped as well. *)
Lemma abort_at_single_counts plan k e s :
  plan !! k = Some (Single s) → (∀ rs, e ≠ Responses rs) →
  counted (timerOf plan (Some (k, e))) = totalUnits plan + 1.
Proof.
  intros Hl He. unfold counted, timerOf.
  cbn [passed failed skipped addSkippedStep].
  destruct (tally_counts e (addPassedStep (totalUnits (take k plan)) newTimer)) as [Hpf Hs].
  rewrite Hs. cbn [passed failed skipped addPassedStep newTimer] in *.
  rewrite (drop_lookup_cons _ _ _ Hl). cbn [skipUnits].
  assert (innerOf e = 0 ∧ reported e = 1) as [-> Hr].
  { destruct e; [by edestruct He | done | done]. }
  rewrite skipUnits_zero.
  rewrite (totalUnits_take_drop k plan), (drop_lookup_cons _ _ _ Hl), totalUnits_cons.
  simpl units. lia.
Qed.

(** A group that fails with the outcomes of its first members leaves the
    count exact: the remaining members are the ones skipped. *)
Lemma abort_at_group_counts plan k rs step :
  plan !! k = Some (Group step) → length rs ≤ length step →
  counted (timerOf plan (Some (k, Responses rs))) = totalUnits plan.
Proof.
  intros Hl Hle. unfold counted, timerOf.
  cbn [passed failed skipped addSkippedStep].
  destruct (tally_counts (Responses rs)
              (addPassedStep (totalUnits (take k plan)) newTimer)) as [Hpf Hs].
  rewrite Hs. cbn [passed failed skipped addPassedStep newTimer reported innerOf] in *.
  rewrite (drop_lookup_cons _ _ _ Hl). cbn [skipUnits].
  rewrite skipUnits_zero, length_drop.
  rewrite (totalUnits_take_drop k plan), (drop_lookup_cons _ _ _ Hl), totalUnits_cons.
  simpl units. lia.
Qed.

End Coordinator.

(* ===================================================================== *)
(** * [parseTokens] *)
(* ===================================================================== *)

Lemma split_on_inhabited sep s : Js.split_on sep s ≠ [].
Proof.
  destruct s as [| c r]; simpl; [done |].
  destruct (decide (c = sep)); [done |].
  by destruct (Js.split_on sep r).
Qed.

(** The pieces of [split('=')] are the name and the pieces of the remainder. *)
Lemma split_on_eq s :
  Js.split_on "="%char s =
  before_eq s :: match after_eq s with
                 | Some r => Js.split_on "="%char r
                 | None => []
                 end.
Proof.
  induction s as [| c r IH]; simpl; [done |].
  destruct (decide (c = "="%char)); [done |].
  rewrite IH. done.
Qed.

Lemma split_name t : Js.split "="%char 2 t !! 0 = Some (before_eq t).
Proof. unfold Js.split. by rewrite split_on_eq. Qed.

Lemma split_value t : Js.split "="%char 2 t !! 1 = token_value t.
Proof.
  unfold Js.split, token_value. rewrite split_on_eq.
  destruct (after_eq t) as [r |]; simpl; [| done].
  by rewrite split_on_eq.
Qed.

Lemma truthy_Some s : Js.truthy (Some s) = true ↔ s ≠ ""%string.
Proof.
  simpl. rewrite negb_true_iff. split.
  - intros H ->. done.
  - intros H. apply String.eqb_neq. done.
Qed.

Lemma parseTokens_step_defines m t name :
  defines t name →
  ∃ v, token_value t = Some v ∧ parseTokens_step m t = <[name := v]> m.
Proof.
  intros (Hn & Hne & Hproto & v & Hv & Hvne). exists v. split; [done |].
  unfold parseTokens_step. cbn zeta. rewrite split_name, split_value, Hv, Hn.
  destruct (truthy_Some name) as [_ ->]; [| done].
  destruct (truthy_Some v) as [_ ->]; [| done]. simpl.
  unfold Js.obj_set. by destruct (decide (name = "__proto__"%string)).
Qed.

Lemma parseTokens_step_other m t name :
  ¬ defines t name → parseTokens_step m t !! name = m !! name.
Proof.
  intros Hnot. unfold parseTokens_step. cbn zeta. rewrite split_name, split_value.
  destruct (Js.truthy (Some (before_eq t))) eqn:Hk; [| done].
  destruct (token_value t) as [v |] eqn:Hv; [| done].
  destruct (Js.truthy (Some v)) eqn:Htv; [| done]. simpl.
  unfold Js.obj_set. destruct (decide (before_eq t = "__proto__"%string)); [done |].
  destruct (decide (before_eq t = name)) as [Heq | Hneq].
  - exfalso. apply Hnot. subst name. repeat split; [| done |].
    + by apply truthy_Some.
    + exists v. split; [done |]. by apply truthy_Some.
  - by rewrite lookup_insert_ne.
Qed.

Lemma defines_dec t name : defines t name ∨ ¬ defines t name.
Proof.
  unfold defines.
  destruct (decide (before_eq t = name)); [| right; tauto].
  destruct (decide (name = ""%string)); [right; tauto |].
  destruct (decide (name = "__proto__"%string)); [right; tauto |].
  destruct (token_value t) as [v |]; [| right; intros (_ & _ & _ & v & ? & _); done].
  destruct (decide (v = ""%string)) as [-> | Hv].
  - right. intros (_ & _ & _ & v & [= <-] & ?). done.
  - left. eauto 10.
Qed.

Lemma parseTokens_snoc raw t : parseTokens (raw ++ [t]) = parseTokens_step (parseTokens raw) t.
Proof. unfold parseTokens. by rewrite foldl_app. Qed.

(** C9 (as amended).  [parseTokens] maps [name] to [v] exactly when the
    last raw value that defines [name] carries [v].  A raw value defines
    [name] when [name], the text before its first ['='], is non-empty and
    is not [__proto__], and its value, the text between its first ['=']
    and the next ['='] or the end, is non-empty.  So a raw value with no
    ['='], with an empty name or with an empty value adds nothing, a value
    stops at the second ['='], and a later raw value overrides an earlier
    one of the same name. *)
Theorem parseTokens_entry (raw : list string) (name v : string) :
  parseTokens raw !! name = Some v ↔
  ∃ pre t post,
    raw = pre ++ t :: post ∧ defines t name ∧ token_value t = Some v ∧
    Forall (fun t' => ¬ defines t' name) post.
Proof.
  revert v. induction raw as [| t raw IH] using rev_ind; intros v.
  - split.
    + unfold parseTokens; simpl. by rewrite lookup_empty.
    + intros (pre & t & post & H & _). by destruct pre.
  - rewrite parseTokens_snoc. destruct (defines_dec t name) as [Hd | Hd].
    + destruct (parseTokens_step_defines (parseTokens raw) t name Hd) as (v' & Hv' & ->).
      rewrite lookup_insert_eq. split.
      * intros [= <-]. exists raw, t, []. done.
      * intros (pre & t' & post & Heq & Hd' & Hv & Hpost).
        destruct post as [| x post _] using rev_ind.
        -- apply app_inj_tail in Heq as [_ <-]. congruence.
        -- rewrite app_comm_cons, app_assoc in Heq.
           apply app_inj_tail in Heq as [_ <-].
           apply Forall_app in Hpost as [_ Hx].
           rewrite Forall_singleton in Hx. contradiction.
    + rewrite (parseTokens_step_other _ _ _ Hd), IH. split.
      * intros (pre & t' & post & -> & Hd' & Hv & Hpost).
        exists pre, t', (post ++ [t]). rewrite <- app_assoc. split; [done |].
        split; [done |]. split; [done |].
        apply Forall_app. split; [done |]. by apply Forall_singleton.
      * intros (pre & t' & post & Heq & Hd' & Hv & Hpost).
        destruct post as [| x post _] using rev_ind.
        -- apply app_inj_tail in Heq as [_ <-]. done.
        -- rewrite app_comm_cons, app_assoc in Heq.
           apply app_inj_tail in Heq as [-> <-].
           apply Forall_app in Hpost as [Hpost _].
           exists pre, t', post. done.
Qed.

(** C9 (as first worded) fails.  ["a==c"] has the non-empty name ["a"]
    and the non-empty remainder ["=c"], and ["__proto__=x"] has two
    non-empty sides, yet neither adds an entry. *)
Lemma parseTokens_nonempty_sides_without_entry :
  (before_eq "a==c" = "a"%string ∧ after_eq "a==c" = Some "=c"%string ∧
   parseTokens ["a==c"%string] !! "a"%string = None) ∧
  (before_eq "__proto__=x" = "__proto__"%string ∧ after_eq "__proto__=x" = Some "x"%string ∧
   parseTokens ["__proto__=x"%string] = ∅) ∧
  ¬ entry_iff_nonempty_sides.
Proof.
  split; [by vm_compute |]. split; [by vm_compute |].
  intros H. destruct (H ["a==c"%string] "a"%string) as [_ H2].
  destruct H2 as [v Hv].
  - exists "a==c"%string, "=c"%string. repeat split; try done.
    apply list_elem_of_singleton. done.
  - vm_compute in Hv. done.
Qed.

(* ===================================================================== *)
(** * The merged runner step of a group *)
(* ===================================================================== *)

(** C6.  For a group of N members (N at least one) the coordinator builds
    a merged runner step, and hands that very step to [runSteps]; it
    carries N operation descriptors, N display texts, N [waitFor] and N
    [failAfter] values.  The i-th of each is the i-th member's own: the
    member's descriptor, text, [waitFor] and [failAfter] (entry 0 of the
    member's arrays), so each sub-step keeps its own delay and
    deadline. *)
Theorem stepRunner_keeps_members (step : list RunnerStep) :
  step ≠ [] →
  ∃ runner,
    stepRunner step = Some runner ∧
    (∀ (host : Host) index timer p, ∃ r,
        output (runElement (Group step) index timer p).2
        = output p ++ [CalledRunSteps runner r]) ∧
    length (runner_protoSteps runner) = length step ∧
    length (runner_stepText runner) = length step ∧
    length (runner_waitFor runner) = length step ∧
    length (runner_failAfter runner) = length step ∧
    (∀ i s, step !! i = Some s →
      runner_protoSteps runner !! i = Some (head (protoSteps s)) ∧
      runner_stepText runner !! i = Some (Js.first_or_self (stepText s)) ∧
      runner_waitFor runner !! i = Some (head (waitFor s)) ∧
      runner_failAfter runner !! i = Some (head (failAfter s))) ∧
    (∀ i s d t w f,
      step !! i = Some s →
      protoSteps s = [d] → Js.values (stepText s) = [t] →
      waitFor s = [w] → failAfter s = [f] →
      runner_protoSteps runner !! i = Some (Some d) ∧
      runner_stepText runner !! i = Some (Some t) ∧
      runner_waitFor runner !! i = Some (Some w) ∧
      runner_failAfter runner !! i = Some (Some f)).
Proof.
  intros Hne. destruct step as [| first rest]; [done |].
  eexists. split; [reflexivity |]. split.
  { intros host index timer p. rewrite runElement_spec.
    cbn [settle stepRunner].
    match goal with |- context [runSteps ?r ?w] => destruct (runSteps r w) as [[| e] w'] end.
    - exists Resolved. reflexivity.
    - exists (Rejected e). reflexivity. }
  cbn [runner_protoSteps runner_stepText runner_waitFor runner_failAfter].
  rewrite !length_map.
  assert (∀ i s, (first :: rest) !! i = Some s →
    map (fun s => head (protoSteps s)) (first :: rest) !! i = Some (head (protoSteps s)) ∧
    map (fun s => Js.first_or_self (stepText s)) (first :: rest) !! i
    = Some (Js.first_or_self (stepText s)) ∧
    map (fun s => head (waitFor s)) (first :: rest) !! i = Some (head (waitFor s)) ∧
    map (fun s => head (failAfter s)) (first :: rest) !! i = Some (head (failAfter s)))
    as Hat.
  { intros i s Hs. rewrite !list_lookup_fmap, Hs. done. }
  split; [done |]. split; [done |]. split; [done |]. split; [done |].
  split; [exact Hat |].
  intros i s d t w f Hs Hd Ht Hw Hf.
  destruct (Hat i s Hs) as (-> & -> & -> & ->). rewrite Hd, Hw, Hf.
  destruct (stepText s) as [a | l]; simpl in Ht |- *.
  - by injection Ht as ->.
  - by rewrite Ht.
Qed.

Lemma stepRunner_keeps_members_witness :
  [Demo.C; Demo.D; Demo.E] ≠ [] ∧
  ∃ runner,
    stepRunner [Demo.C; Demo.D; Demo.E] = Some runner ∧
    runner_protoSteps runner
    = [Some {| stepId := "ok"; data := [] |}; Some {| stepId := "ok"; data := [] |};
       Some {| stepId := "fails"; data := [] |}] ∧
    runner_stepText runner = [Some "C"%string; Some "D"%string; Some "E"%string] ∧
    runner_waitFor runner = [Some 0; Some 100; Some 0] ∧
    runner_failAfter runner = [Some 0; Some 0; Some 50].
Proof.
  split; [done |].
  destruct (stepRunner_keeps_members [Demo.C; Demo.D; Demo.E]) as (runner & Hr & _);
    [done |].
  exists runner. split; [exact Hr |].
  vm_compute in Hr. injection Hr as <-. repeat split; reflexivity.
Defined.




(* ===================================================================== *)
(** * The plan as a partition of the step list *)
(* ===================================================================== *)

Lemma planSteps_optimize runs : planSteps (optimize runs) = flatSteps runs.
Proof.
  unfold planSteps, flatSteps, optimize. rewrite map_map. f_equal.
  apply map_ext. by intros [s | run].
Qed.

Lemma first_entries {A B} (f : A → list B) (l : list A) :
  Forall (fun a => length (f a) = 1) l →
  map (fun a => head (f a)) l = map Some (concat (map f l)).
Proof.
  induction 1 as [| a l Ha _ IH]; [done |]. simpl.
  destruct (f a) as [| b [| ? ?]]; try done. simpl. by rewrite IH.
Qed.

Lemma first_texts (l : list RunnerStep) :
  Forall (fun s => length (Js.values (stepText s)) = 1) l →
  map (fun s => Js.first_or_self (stepText s)) l
  = map Some (concat (map (fun s => Js.values (stepText s)) l)).
Proof.
  induction 1 as [| s l Hs _ IH]; [done |]. simpl.
  destruct (stepText s) as [a | [| b [| ? ?]]]; try done; simpl; by rewrite IH.
Qed.

Lemma executed_group (run : list RunnerStep) :
  Forall unmerged run →
  executedProtoSteps (Group run) = flatProtoSteps run ∧
  executedTexts (Group run) = flatTexts run.
Proof.
  intros H. destruct run as [| first rest]; [done |].
  unfold executedProtoSteps, executedTexts, flatProtoSteps, flatTexts.
  cbn [stepRunner runner_protoSteps runner_stepText]. split.
  - apply first_entries. eapply Forall_impl; [exact H |]. by intros s [? _].
  - apply first_texts. eapply Forall_impl; [exact H |]. by intros s [_ ?].
Qed.

Lemma flatSteps_cons r runs :
  flatSteps (r :: runs)
  = match r with Alone s => [s] | Marked run => run end ++ flatSteps runs.
Proof. reflexivity. Qed.

Lemma markedSteps_cons r runs :
  markedSteps (r :: runs)
  = match r with Alone _ => [] | Marked run => run end ++ markedSteps runs.
Proof. reflexivity. Qed.

Lemma flatProtoSteps_app a b : flatProtoSteps (a ++ b) = flatProtoSteps a ++ flatProtoSteps b.
Proof. unfold flatProtoSteps. by rewrite map_app, concat_app, map_app. Qed.

Lemma flatTexts_app a b : flatTexts (a ++ b) = flatTexts a ++ flatTexts b.
Proof. unfold flatTexts. by rewrite map_app, concat_app, map_app. Qed.

(** The merged runner steps hand over what the marked runs hold, as long
    as the members of the marked runs carry one descriptor and one text
    each. *)
Lemma optimize_partitions_marked (runs : list DelimitedRun) :
  Forall unmerged (markedSteps runs) →
  concat (map executedProtoSteps (optimize runs)) = flatProtoSteps (flatSteps runs) ∧
  concat (map executedTexts (optimize runs)) = flatTexts (flatSteps runs).
Proof.
  intros H.
  induction runs as [| r runs IH]; [done |].
  rewrite markedSteps_cons in H. apply Forall_app in H as [Hr Hrest].
  destruct (IH Hrest) as [IHp IHt].
  rewrite flatSteps_cons, flatProtoSteps_app, flatTexts_app.
  cbn [optimize map concat]. fold (optimize runs). rewrite IHp, IHt.
  destruct r as [s | run].
  - split; f_equal.
    + unfold flatProtoSteps. simpl. by rewrite app_nil_r.
    + unfold flatTexts. simpl. by rewrite app_nil_r.
  - destruct (executed_group run Hr) as [-> ->]. done.
Qed.

Lemma markedSteps_flatSteps (P : RunnerStep → Prop) (runs : list DelimitedRun) :
  Forall P (flatSteps runs) → Forall P (markedSteps runs).
Proof.
  induction runs as [| r runs IH]; [done |].
  rewrite flatSteps_cons, markedSteps_cons. intros [Hr Hrest]%Forall_app.
  apply Forall_app. split; [| by apply IH].
  destruct r; [constructor | exact Hr].
Qed.

(** C2.  For every flat Step list of Steps as the data model has them
    before merging, one operation descriptor and one display text each,
    given to the optimizer as delimited runs, the plan is a total,
    order-preserving partition: its elements hold the steps of the list
    once each and in order, and the descriptors and texts handed to the
    step engine, the merged runner step of every group included, are
    those of the list, once each and in order: the i-th descriptor and
    the i-th text executed are those of the i-th Step. *)
Theorem plan_partitions_flat_steps (runs : list DelimitedRun) :
  Forall unmerged (flatSteps runs) →
  planSteps (optimize runs) = flatSteps runs ∧
  concat (map executedProtoSteps (optimize runs)) = flatProtoSteps (flatSteps runs) ∧
  concat (map executedTexts (optimize runs)) = flatTexts (flatSteps runs) ∧
  length (concat (map executedProtoSteps (optimize runs))) = length (flatSteps runs) ∧
  length (concat (map executedTexts (optimize runs))) = length (flatSteps runs) ∧
  ∀ i s, flatSteps runs !! i = Some s →
    ∃ d t, protoSteps s = [d] ∧ Js.values (stepText s) = [t] ∧
           concat (map executedProtoSteps (optimize runs)) !! i = Some (Some d) ∧
           concat (map executedTexts (optimize runs)) !! i = Some (Some t).
Proof.
  intros H. split; [apply planSteps_optimize |].
  destruct (optimize_partitions_marked runs (markedSteps_flatSteps _ _ H)) as [Hp Ht].
  split; [exact Hp |]. split; [exact Ht |]. rewrite Hp, Ht.
  assert (map (fun s => head (protoSteps s)) (flatSteps runs)
          = flatProtoSteps (flatSteps runs)) as Hd.
  { apply first_entries. eapply Forall_impl; [exact H |]. by intros s [? _]. }
  assert (map (fun s => Js.first_or_self (stepText s)) (flatSteps runs)
          = flatTexts (flatSteps runs)) as Hx.
  { apply first_texts. eapply Forall_impl; [exact H |]. by intros s [_ ?]. }
  rewrite <- Hd, <- Hx, !length_map. split; [done |]. split; [done |].
  intros i s Hs. rewrite !list_lookup_fmap, Hs. simpl.
  destruct (Forall_lookup_1 _ _ _ _ H Hs) as [Hlp Hlt].
  destruct (protoSteps s) as [| d [| ? ?]]; try done.
  exists d. destruct (stepText s) as [a | [| b [| ? ?]]]; try done; by eexists.
Qed.

Lemma plan_partitions_flat_steps_witness :
  Forall unmerged (flatSteps [Alone Demo.B; Marked [Demo.C; Demo.D; Demo.E]; Alone Demo.A]) ∧
  flatSteps [Alone Demo.B; Marked [Demo.C; Demo.D; Demo.E]; Alone Demo.A]
  = [Demo.B; Demo.C; Demo.D; Demo.E; Demo.A] ∧
  optimize [Alone Demo.B; Marked [Demo.C; Demo.D; Demo.E]; Alone Demo.A]
  = [Single Demo.B; Group [Demo.C; Demo.D; Demo.E]; Single Demo.A] ∧
  concat (map executedTexts
            (optimize [Alone Demo.B; Marked [Demo.C; Demo.D; Demo.E]; Alone Demo.A]))
  = flatTexts [Demo.B; Demo.C; Demo.D; Demo.E; Demo.A].
Proof.
  assert (Forall unmerged
            (flatSteps [Alone Demo.B; Marked [Demo.C; Demo.D; Demo.E]; Alone Demo.A])) as H.
  { repeat constructor. }
  split; [exact H |]. split; [reflexivity |]. split; [reflexivity |].
  exact (proj1 (proj2 (proj2 (plan_partitions_flat_steps _ H)))).
Defined.

(* ===================================================================== *)
(** * Counters of a scenario and of a batch *)
(* ===================================================================== *)

(** C1, on the code.  Scenario [A, B] without grouping, [A] fails: the
    scenario has two step-units, yet its Timer ends with passed 0,
    failed 1 and skipped 2, since the cascade starts at the failed element
    itself and marks [A] as skipped before [B].  The counters add up to
    three, one more than the step-units of the scenario. *)
Theorem failed_step_is_skipped_too :
  totalUnits (optimizedSteps Demo.scenarioAB) = 2 ∧
  (runScenario Demo.scenarioAB newTimer Demo.start).1.2
  = {| passed := 0; failed := 1; skipped := 2 |} ∧
  output (runScenario Demo.scenarioAB newTimer Demo.start).2
  = [Log (nl +:+ "A then B" +:+ nl); NewTimer;
     CalledRunStep Demo.A
       (Rejected (Response {| getOutcome := FAILED; getMessage := "" |}));
     LogSkipped (Js.One "A"%string); LogSkipped (Js.One "B"%string);
     PrintTime {| passed := 0; failed := 1; skipped := 2 |}].
Proof. split; [reflexivity |]. split; vm_compute; reflexivity. Qed.

(** The group and batch examples of the specification. *)
Example group_counters :
  (runScenario Demo.scenarioCDE newTimer Demo.start).1.2
  = {| passed := 2; failed := 1; skipped := 0 |}.
Proof. vm_compute. reflexivity. Qed.

Example batch_counters :
  let p := {| args_file := "suite"; flags_token := None; flags_use_ssl := false |} in
  (@runParsed Demo.host p Demo.start).1
  = Some ({| passed := 1; failed := 1; skipped := 0 |},
          [{| passed := 1; failed := 1; skipped := 1 |};
           {| passed := 3; failed := 0; skipped := 0 |}]) ∧
  exitCode (@runParsed Demo.host p Demo.start).2 = Some 1.
Proof. split; vm_compute; reflexivity. Qed.

Section Batch.
Context {host : Host}.

Lemma runScenario_timer sc overall p :
  (runScenario sc overall p).1.2
  = timerOf (optimizedSteps sc) (walk (optimizedSteps sc) (world p)).1.
Proof. by rewrite runScenario_spec. Qed.

Lemma take_S_lookup (plan : list PlanElement) k el :
  plan !! k = Some el → take (S k) plan = take k plan ++ [el].
Proof. intros H. by apply take_S_r. Qed.

Lemma totalUnits_app a b : totalUnits (a ++ b) = totalUnits a + totalUnits b.
Proof. apply sum_list_with_app. Qed.

Lemma walks_length scs w : length (walks scs w).1 = length scs.
Proof.
  revert w. induction scs as [| sc scs IH]; intros w; [done |]. simpl.
  destruct (walk (optimizedSteps sc) w) as [r w'].
  specialize (IH w'). destruct (walks scs w') as [rs w'']. simpl in *. lia.
Qed.

Lemma timerOf_stepCounts plan r : stepCounts plan r (timerOf plan r).
Proof.
  destruct r as [[k e] |]; [| done]. cbn [stepCounts].
  assert (passed (timerOf plan (Some (k, e)))
          = totalUnits (take k plan) + (reported e - failures e) ∧
          failed (timerOf plan (Some (k, e))) = failures e ∧
          skipped (timerOf plan (Some (k, e))) = skipUnits (drop k plan) (innerOf e))
    as (Hp & Hf & Hs).
  { unfold timerOf. destruct e as [rs | r | m]; simpl; repeat split; lia. }
  split; [exact Hp |]. split; [exact Hf |]. split; [exact Hs |]. split.
  - intros step rs Hl -> Hle. by eapply abort_at_group_counts.
  - intros s Hl He.
    pose proof (abort_at_single_counts plan k e s Hl He) as Hc.
    assert (innerOf e = 0 ∧ failures e = 1) as [Hi Hfe].
    { destruct e; [by edestruct He | done | done]. }
    rewrite Hf, Hs, Hi, Hfe, skipUnits_zero. done.
Qed.

Lemma timersOf_stepCounts scs w :
  Forall3 (fun sc r t => stepCounts (optimizedSteps sc) r t)
    scs (walks scs w).1 (timersOf scs (walks scs w).1).
Proof.
  revert w. induction scs as [| sc scs IH]; intros w.
  - constructor.
  - simpl. destruct (walk (optimizedSteps sc) w) as [r w'].
    specialize (IH w'). destruct (walks scs w') as [rs w''].
    unfold timersOf in *. simpl in *. constructor; [apply timerOf_stepCounts | exact IH].
Qed.

Lemma overallOf_counts rs :
  passed (overallOf rs) + failed (overallOf rs) = length rs ∧ skipped (overallOf rs) = 0.
Proof.
  split; [| done]. unfold overallOf; simpl.
  induction rs as [| r rs IH]; [done |].
  rewrite !filter_cons. destruct r as [[k e] |]; simpl.
  - destruct (decide (true = false)); [done |].
    destruct (decide (true = true)); [| done]. simpl. lia.
  - destruct (decide (false = false)); [| done].
    destruct (decide (false = true)); [done |]. simpl. lia.
Qed.

(** C3, on the code.  In a batch run the overall Timer gets one unit per
    scenario: a passed unit for each scenario whose plan elements all
    succeeded, a failed unit for each scenario that aborted, never a
    skipped one.  Each scenario's own Timer counts step-units: all of
    them as passed when the scenario completes; when element [k] fails,
    the units before it and the passed outcomes of the failure as passed,
    its other outcomes as failed, and the units the cascade walks over as
    skipped.  For a group that fails with the outcomes of its members
    that is one unit per step-unit of the plan.  For a step on its own
    that fails it is not: the step is counted as failed and as skipped,
    two units for one step, and the Timer holds one unit more than the
    plan has step-units. *)
Theorem scenario_timer_counts_failed_step_twice
    (p : Parsed) (proc proc1 : Process) (scs : list Scenario) :
  setUp p (parseTokens (default [] (flags_token p))) proc = (inr scs, proc1) →
  let batch := map (onScenario coerceStep) scs in
  let rs := (walks batch (world proc1)).1 in
  ∃ overall timers,
    (runParsed p proc).1 = Some (overall, timers) ∧
    length rs = length batch ∧
    passed overall = length (filter (fun r => aborted r = false) rs) ∧
    failed overall = length (filter (fun r => aborted r = true) rs) ∧
    skipped overall = 0 ∧
    counted overall = length batch ∧
    Forall3 (fun sc r t => stepCounts (optimizedSteps sc) r t) batch rs timers.
Proof.
  intros Hset batch rs.
  exists (overallOf rs), (timersOf batch rs).
  rewrite (runParsed_batch _ _ _ _ Hset). cbn zeta. cbn [fst].
  destruct (overallOf_counts rs) as [Hsum Hsk].
  assert (length rs = length batch) as Hlen by apply walks_length.
  repeat split; try done.
  - unfold counted. rewrite Hsk. lia.
  - apply timersOf_stepCounts.
Qed.

Lemma walks_take n scs w : (walks (take n scs) w).1 = take n (walks scs w).1.
Proof.
  revert n w. induction scs as [| sc scs IH]; intros [| n] w; try done.
  simpl. destruct (walk (optimizedSteps sc) w) as [r w'].
  specialize (IH n w'). destruct (walks (take n scs) w') as [rs1 w1].
  destruct (walks scs w') as [rs w'']. simpl in *. by rewrite IH.
Qed.

Lemma settle_flag el index timer q :
  exitCode (runElement el index timer q).2
  = match (settle el (world q)).1 with
    | Rejected _ => Some 1
    | Resolved => exitCode q
    end.
Proof.
  rewrite runElement_spec. by destruct (settle el (world q)) as [[| e] w].
Qed.

(** C4 (as amended).  The exit-status flag becomes 1 at the very element
    (step or group) that fails, and setting it does not end the run: once
    set-up has succeeded every scenario of the batch runs to completion,
    in input order, whatever failed before it; the actions of the run are
    those of each scenario in turn, from its header to its timing line.
    After any number of scenarios the flag is 1 exactly when one of them
    aborted; with no failure it is left as it was.  A set-up error sets
    the flag as well, and then the run ends with its report alone: no
    scenario is run. *)
Theorem exit_flag_set_batch_completes (p : Parsed) (proc : Process) :
  (∀ el index timer q,
      exitCode (runElement el index timer q).2
      = match (settle el (world q)).1 with
        | Rejected _ => Some 1
        | Resolved => exitCode q
        end) ∧
  match setUp p (parseTokens (default [] (flags_token p))) proc with
  | (inl e, _) =>
      (runParsed p proc).1 = None ∧
      exitCode (runParsed p proc).2 = Some 1 ∧
      ∃ lines, output (runParsed p proc).2 = output proc ++ lines ∧
               forallb isReport lines = true
  | (inr scs, proc1) =>
      let batch := map (onScenario coerceStep) scs in
      let rs := (walks batch (world proc1)).1 in
      (runParsed p proc).1 = Some (overallOf rs, timersOf batch rs) ∧
      length (timersOf batch rs) = length batch ∧
      output (runParsed p proc).2
      = output proc ++ [NewTimer] ++ batchEvents batch (world proc1)
          ++ closingLines batch (overallOf rs) ∧
      exitCode (runParsed p proc).2
      = (if existsb aborted rs then Some 1 else exitCode proc) ∧
      ∀ n, exitCode (mapSeriesScenarios (take n batch) newTimer proc1).2
           = (if existsb aborted (take n rs) then Some 1 else exitCode proc)
  end.
Proof.
  split; [apply settle_flag |].
  destruct (setUp p (parseTokens (default [] (flags_token p))) proc)
    as [[e | scs] proc1] eqn:Hset.
  - destruct (setUp_quiet _ _ _ _ _ Hset) as [Hout _].
    rewrite (runParsed_error _ _ _ _ Hset). cbn [fst snd more output exitCode].
    split; [done |]. split; [done |].
    exists (reportLines e). rewrite Hout. split; [done |].
    destruct e as [m [u |] | m | m]; simpl; try done. by destruct (negb _).
  - destruct (setUp_quiet _ _ _ _ _ Hset) as [Hout Hflag].
    rewrite (runParsed_batch _ _ _ _ Hset). cbn zeta. cbn [fst snd more output exitCode].
    rewrite Hout, Hflag. repeat split.
    + unfold timersOf. rewrite length_zip_with, walks_length. lia.
    + intros n. rewrite mapSeriesScenarios_spec. cbn zeta. cbn [snd more exitCode].
      by rewrite walks_take, Hflag.
Qed.

End Batch.

(** C4 (as first worded) fails for a set-up error.  The scenario file is
    parsed, so the batch holds one scenario; attaching its client throws
    an authentication error; the flag is set and the run ends there: no
    Timer is left and the scenario's step is never handed to the step
    engine. *)
Lemma setup_error_stops_batch :
  let p := {| args_file := "secure.crank.yml"; flags_token := None; flags_use_ssl := false |} in
  (@parseScenarioFiles Demo.host "secure.crank.yml" (parseTokens [])
   = inr [Demo.scenarioSecure] ∧
   (@runParsed Demo.host p Demo.start).1 = None ∧
   exitCode (@runParsed Demo.host p Demo.start).2 = Some 1 ∧
   output (@runParsed Demo.host p Demo.start).2
   = [Log ""; Log "Error running scenario:";
      LogSetupError (AuthenticationError "bad credentials" (Some "https://example.test/auth"%string));
      Log ""; Log "Relevant authentication docs for your reference:";
      OpenUrl "https://example.test/auth" "https://example.test/auth"]) ∧
  ¬ batch_completes_after_any_failure.
Proof.
  intros p. split; [repeat split; vm_compute; reflexivity |].
  intros H. destruct (H Demo.host p Demo.start [Demo.scenarioSecure])
    as (overall & timers & Hrun & _); [reflexivity |].
  vm_compute in Hrun. discriminate Hrun.
Qed.

Lemma scenario_timer_counts_failed_step_twice_witness :
  let p := {| args_file := "suite"; flags_token := None; flags_use_ssl := false |} in
  let scs := map (onScenario (attachClient (fun c => Handle (String.length c))))
               [Demo.scenarioBA; Demo.scenarioBCD] in
  @setUp Demo.host p (parseTokens []) Demo.start = (inr scs, Demo.start) ∧
  map (fun sc => totalUnits (optimizedSteps sc)) scs = [2; 3] ∧
  ∃ overall timers,
    (@runParsed Demo.host p Demo.start).1 = Some (overall, timers) ∧
    overall = {| passed := 1; failed := 1; skipped := 0 |} ∧
    timers = [{| passed := 1; failed := 1; skipped := 1 |};
              {| passed := 3; failed := 0; skipped := 0 |}] ∧
    map counted timers = [3; 3].
Proof.
  intros p scs. split; [reflexivity |]. split; [reflexivity |].
  destruct (@scenario_timer_counts_failed_step_twice Demo.host p Demo.start Demo.start scs
              eq_refl)
    as (overall & timers & Hrun & _).
  exists overall, timers. split; [exact Hrun |].
  vm_compute in Hrun. injection Hrun as <- <-. repeat split; reflexivity.
Defined.

(* ===================================================================== *)
(** * Set-up errors *)
(* ===================================================================== *)

Section SetUp.
Context {host : Host}.

Ltac no_member H :=
  repeat (apply elem_of_cons in H as [H | H]; [discriminate H |]);
  by apply elem_of_nil in H.

Lemma reportLines_report e : forallb isReport (reportLines e) = true.
Proof. destruct e as [m [u |] | m | m]; simpl; try done. by destruct (negb _). Qed.

Lemma reportLines_once e : List.filter isErrorLine (reportLines e) = [LogSetupError e].
Proof. destruct e as [m [u |] | m | m]; simpl; try done. by destruct (negb _). Qed.

(** C5.  When scenario parsing or client attachment throws, the run ends
    at the set-up stage: it returns no Timer at all, its only actions are
    log lines and opened links (no Timer is started, no plan element is
    handed to the step engine, the world stays as set-up left it), the
    error is logged exactly once, under one heading, the exit-status
    flag is set to 1, a missing step definition is followed by the hint
    to list the available steps, and an authentication error by its
    help URL when it has one, and by no URL otherwise. *)
Theorem setup_error_ends_run (p : Parsed) (proc proc1 : Process) (e : SetupError) :
  setUp p (parseTokens (default [] (flags_token p))) proc = (inl e, proc1) →
  ∃ lines,
    (runParsed p proc).1 = None ∧
    output (runParsed p proc).2 = output proc ++ lines ∧
    world (runParsed p proc).2 = world proc1 ∧
    exitCode (runParsed p proc).2 = Some 1 ∧
    forallb isReport lines = true ∧
    List.filter isErrorLine lines = [LogSetupError e] ∧
    length (List.filter (isLine "Error running scenario:") lines) = 1 ∧
    match e with
    | AuthenticationError _ (Some url) =>
        if decide (url = ""%string)
        then ∀ text u, OpenUrl text u ∉ lines
        else OpenUrl url url ∈ lines
    | AuthenticationError _ None => ∀ text u, OpenUrl text u ∉ lines
    | MissingStepError _ =>
        Log "Run the following to list available steps" ∈ lines ∧
        Log "  crank registry:steps" ∈ lines
    | Error _ => True
    end.
Proof.
  intros Hset. exists (reportLines e).
  destruct (setUp_quiet _ _ _ _ _ Hset) as [Hout _].
  rewrite (runParsed_error _ _ _ _ Hset). cbn [fst snd more output world exitCode].
  rewrite Hout. repeat split; try done.
  - apply reportLines_report.
  - apply reportLines_once.
  - destruct e as [m [u |] | m | m]; simpl; try done.
    destruct (negb _); simpl; done.
  - unfold reportLines. destruct e as [m [u |] | m | m]; simpl; try done.
    + destruct (decide (u = ""%string)) as [-> | Hu].
      * simpl. intros text v Hin. no_member Hin.
      * apply String.eqb_neq in Hu. rewrite Hu. simpl.
        rewrite !elem_of_cons. tauto.
    + intros text v Hin. no_member Hin.
    + rewrite !elem_of_cons. tauto.
Qed.

Lemma replace_backslashes_plain (path : string) :
  hasChar "\"%char path = false → Js.replace_backslashes path = path.
Proof.
  induction path as [| c r IH]; [done |]. simpl.
  destruct (decide (c = "\"%char)); [done |]. intros H. by rewrite IH.
Qed.

(** C10 (as amended).  When [lstat] reports the path as a directory and
    the pattern [<path>/**/*.crank.yml], built from the path with every
    backslash turned into a slash, matches no file, [parseScenarioFiles]
    throws ["No .crank.yml files found in <path>"], naming the path as
    given: the run logs that error, sets the exit-status flag to 1 and
    runs no scenario.  For a path that holds no backslash this is the
    pattern built from the path as given.  When the path is not a
    directory ([lstat] says so, or fails), the path itself is parsed as
    the one scenario file. *)
Theorem parseScenarioFiles_cases (p : Parsed) (proc : Process) (tokens : gmap string string) :
  (lstat_isDirectory (args_file p) = Some true →
   glob_sync (Js.replace_backslashes (args_file p) +:+ "/**/*.crank.yml") = [] →
   parseScenarioFiles (args_file p) tokens
   = inl (Error ("No .crank.yml files found in " +:+ args_file p)) ∧
   runParsed p proc
   = (None,
      {| world := world proc; exitCode := Some 1;
         output := output proc ++
           [Log ""; Log "Error running scenario:";
            LogSetupError (Error ("No .crank.yml files found in " +:+ args_file p))] |})) ∧
  (lstat_isDirectory (args_file p) = Some true →
   hasChar "\"%char (args_file p) = false →
   glob_sync (args_file p +:+ "/**/*.crank.yml") = [] →
   parseScenarioFiles (args_file p) tokens
   = inl (Error ("No .crank.yml files found in " +:+ args_file p)) ∧
   (runParsed p proc).1 = None ∧
   exitCode (runParsed p proc).2 = Some 1 ∧
   omap callOfEvent (added (output proc) (output (runParsed p proc).2)) = []) ∧
  (lstat_isDirectory (args_file p) ≠ Some true →
   parseScenarioFiles (args_file p) tokens
   = match newScenario (args_file p) tokens with
     | inl e => inl e
     | inr s => inr [s]
     end).
Proof.
  assert (lstat_isDirectory (args_file p) = Some true →
          glob_sync (Js.replace_backslashes (args_file p) +:+ "/**/*.crank.yml") = [] →
          parseScenarioFiles (args_file p) tokens
          = inl (Error ("No .crank.yml files found in " +:+ args_file p)) ∧
          runParsed p proc
          = (None,
             {| world := world proc; exitCode := Some 1;
                output := output proc ++
                  [Log ""; Log "Error running scenario:";
                   LogSetupError
                     (Error ("No .crank.yml files found in " +:+ args_file p))] |}))
    as Hthrow.
  { intros Hdir Hglob.
    assert (∀ tokens, parseScenarioFiles (args_file p) tokens
              = inl (Error ("No .crank.yml files found in " +:+ args_file p))) as Hparse.
    { intros t. unfold parseScenarioFiles. cbn zeta. rewrite Hdir. simpl.
      by rewrite Hglob. }
    split; [apply Hparse |].
    rewrite (runParsed_error p proc
               (Error ("No .crank.yml files found in " +:+ args_file p)) proc).
    + reflexivity.
    + unfold setUp. by rewrite Hparse. }
  split; [exact Hthrow |]. split.
  - intros Hdir Hplain Hglob.
    rewrite <- (replace_backslashes_plain _ Hplain) in Hglob.
    destruct (Hthrow Hdir Hglob) as [Hparse Hrun].
    split; [exact Hparse |]. rewrite Hrun. cbn [fst snd exitCode output].
    split; [done |]. split; [done |].
    unfold added. by rewrite drop_app_length.
  - intros Hdir. unfold parseScenarioFiles. cbn zeta.
    destruct (lstat_isDirectory (args_file p)) as [[|] |]; done.
Qed.

End SetUp.

Lemma setup_error_ends_run_witness :
  let p := {| args_file := "secure.crank.yml"; flags_token := None; flags_use_ssl := true |} in
  @setUp Demo.host p (parseTokens []) Demo.start
  = (inl (AuthenticationError "bad credentials" (Some "https://example.test/auth")), Demo.start) ∧
  ∃ lines,
    output (@runParsed Demo.host p Demo.start).2 = lines ∧
    exitCode (@runParsed Demo.host p Demo.start).2 = Some 1 ∧
    OpenUrl "https://example.test/auth" "https://example.test/auth" ∈ lines.
Proof.
  intros p. split; [reflexivity |].
  destruct (@setup_error_ends_run Demo.host p Demo.start Demo.start
              (AuthenticationError "bad credentials" (Some "https://example.test/auth")))
    as (lines & _ & Hout & _ & Hflag & _ & _ & _ & Hurl).
  - reflexivity.
  - exists lines. split; [exact Hout |]. split; [exact Hflag |]. exact Hurl.
Defined.

Lemma parseScenarioFiles_cases_witness :
  let empty := {| args_file := "empty"; flags_token := None; flags_use_ssl := false |} in
  let file := {| args_file := "ab.crank.yml"; flags_token := None; flags_use_ssl := false |} in
  (@lstat_isDirectory Demo.host "empty" = Some true ∧
   hasChar "\"%char "empty" = false ∧
   @glob_sync Demo.host "empty/**/*.crank.yml" = [] ∧
   exitCode (@runParsed Demo.host empty Demo.start).2 = Some 1) ∧
  (@lstat_isDirectory Demo.host "ab.crank.yml" ≠ Some true ∧
   @parseScenarioFiles Demo.host "ab.crank.yml" ∅ = inr [Demo.scenarioAB]).
Proof.
  intros empty file. split.
  - split; [reflexivity |]. split; [reflexivity |]. split; [reflexivity |].
    destruct (@parseScenarioFiles_cases Demo.host empty Demo.start ∅) as (_ & H & _).
    destruct H as (_ & _ & Hflag & _); [reflexivity | reflexivity | reflexivity |].
    exact Hflag.
  - split; [discriminate |].
    destruct (@parseScenarioFiles_cases Demo.host file Demo.start ∅) as (_ & _ & H).
    refine (eq_trans (H _) _); [discriminate | reflexivity].
Defined.

(** C10 (as first worded) fails.  Where a backslash is an ordinary
    character of a name, the directory [win\dir] holds no scenario file:
    [lstat] is asked about that path, the glob about [win/dir], the
    directory [dir] inside [win], which holds one.  Nothing is thrown:
    the scenario of the other directory is run, its three steps pass and
    the exit-status flag stays unset. *)
Lemma backslash_directory_runs_other_folder :
  let p := {| args_file := "win\dir"; flags_token := None; flags_use_ssl := false |} in
  (@lstat_isDirectory Backslash.host "win\dir" = Some true ∧
   @glob_sync Backslash.host "win\dir/**/*.crank.yml" = [] ∧
   @parseScenarioFiles Backslash.host "win\dir" ∅ = inr [Demo.scenarioBCD] ∧
   (@runParsed Backslash.host p Backslash.start).1
   = Some ({| passed := 1; failed := 0; skipped := 0 |},
           [{| passed := 3; failed := 0; skipped := 0 |}]) ∧
   exitCode (@runParsed Backslash.host p Backslash.start).2 = None) ∧
  ¬ empty_directory_always_throws.
Proof.
  intros p. split; [repeat split; vm_compute; reflexivity |].
  intros H. specialize (H Backslash.host "win\dir"%string ∅ eq_refl eq_refl).
  vm_compute in H. discriminate H.
Qed.

(* ===================================================================== *)
(** * Teardown *)
(* ===================================================================== *)

Section Teardown.
Context {host : Host}.

Lemma stopEach_spec sessions p :
  stopEach sessions p =
  (tt, more p (endAll sessions (world p)).2 (exitCode p)
         (stopEvents (endAll sessions (world p)).1)).
Proof.
  revert p. induction sessions as [| c rest IH]; intros p.
  - simpl. unfold ret. by rewrite more_nil.
  - cbn [stopEach endAll]. unfold bind, outside, emit.
    destruct (endSession c (world p)) as [clean w'].
    rewrite IH. cbn [world exitCode output].
    destruct (endAll rest w') as [l w'']. cbn [fst snd stopEvents map].
    unfold more. cbn [output]. by rewrite <- app_assoc.
Qed.


Lemma finally_spec p :
  finally p =
  (tt, more p (endAll (liveSessions (world p)) (world p)).2 (exitCode p)
         (CalledStopAllCogs :: stopEvents (endAll (liveSessions (world p)) (world p)).1)).
Proof.
  unfold finally, stopAllCogs, bind, emit. rewrite stopEach_spec.
  cbn [world exitCode output]. unfold more. cbn [output].
  by rewrite <- app_assoc.
Qed.











End Teardown.

Example teardown_after_throw :
  @command Demo.host [] Demo.start
  = ((Threw, None),
     @Build_Process Demo.host tt None
       [CalledStopAllCogs; CalledStop (Handle 0) true; CalledStop (Handle 1) false]).
Proof. reflexivity. Qed.

Example teardown_after_failed_step :
  (@command Demo.host ["ab.crank.yml"%string] Demo.start).1.1 = Returned ∧
  exitCode (@command Demo.host ["ab.crank.yml"%string] Demo.start).2 = Some 1 ∧
  List.filter isStopAll (output (@command Demo.host ["ab.crank.yml"%string] Demo.start).2)
  = [CalledStopAllCogs].
Proof. split; [| split]; vm_compute; reflexivity. Qed.

(* ===================================================================== *)
(** * The [cog:scaffold] command *)
(* ===================================================================== *)

Section ScaffoldCommand.
Context {console : Scaffold.Console}.

Lemma scaffold_run_spec argv flags st :
  Scaffold.parse argv = Some flags →
  ∃ final c t,
    Scaffold.run argv st
    = (c, {| Scaffold.terminal := t;
             Scaffold.actions :=
               Scaffold.actions st
                 ++ map Scaffold.Asked (Scaffold.openQuestions flags)
                 ++ [Scaffold.Generated final] |}) ∧
    Scaffold.filled flags final.
Proof.
  intros Hp. unfold Scaffold.run, Scaffold.openQuestions, Scaffold.filled. rewrite Hp.
  unfold Scaffold.fillName, Scaffold.fillOrg, Scaffold.fillLanguage, Scaffold.fillExample,
    Scaffold.promptText, Scaffold.promptYesNo.
  destruct flags as [lang dir nm og ex]. cbn [Scaffold.name Scaffold.org Scaffold.language
    Scaffold.include_example_step Scaffold.output_directory].
  destruct (Js.truthy nm); cbn [negb];
    [| destruct (Scaffold.askText Scaffold.nameQuestion _) as [a1 t1]];
    cbn [Scaffold.name Scaffold.org Scaffold.language Scaffold.include_example_step
           Scaffold.output_directory Scaffold.terminal Scaffold.actions];
    (destruct (Js.truthy og); cbn [negb];
     [| destruct (Scaffold.askText Scaffold.orgQuestion _) as [a2 t2]]);
    cbn [Scaffold.name Scaffold.org Scaffold.language Scaffold.include_example_step
           Scaffold.output_directory Scaffold.terminal Scaffold.actions];
    (destruct (Js.truthy lang); cbn [negb];
     [| destruct (Scaffold.askText Scaffold.languageQuestion _) as [a3 t3]]);
    cbn [Scaffold.name Scaffold.org Scaffold.language Scaffold.include_example_step
           Scaffold.output_directory Scaffold.terminal Scaffold.actions];
    (destruct ex as [b |];
     [| destruct (Scaffold.askYesNo Scaffold.exampleQuestion _) as [a4 t4]]);
    cbn [Scaffold.name Scaffold.org Scaffold.language Scaffold.include_example_step
           Scaffold.output_directory Scaffold.terminal Scaffold.actions];
    match goal with
    | |- context [Scaffold.generate ?f ?t] => destruct (Scaffold.generate f t) as [c t']
    end;
    eexists _, c, t'; (split; [simpl; rewrite <- ?app_assoc; reflexivity |]);
    cbn [Scaffold.name Scaffold.org Scaffold.language Scaffold.include_example_step
           Scaffold.output_directory];
    repeat split; eauto.
Qed.

End ScaffoldCommand.

Lemma questions_app a b :
  Scaffold.questions (a ++ b) = Scaffold.questions a ++ Scaffold.questions b.
Proof. apply omap_app. Qed.

Lemma handed_app a b :
  Scaffold.handed (a ++ b) = Scaffold.handed a ++ Scaffold.handed b.
Proof. apply omap_app. Qed.

Lemma questions_asked l : Scaffold.questions (map Scaffold.Asked l) = l.
Proof. induction l as [| q l IH]; [done |]. simpl. by rewrite IH. Qed.

Lemma handed_asked l : Scaffold.handed (map Scaffold.Asked l) = [].
Proof. by induction l. Qed.

(** X14.  When the command line parses, the questions asked are exactly
    those the parsed flags leave open, each once and in the order name,
    organization, language, example step; the generator is called once,
    after the last answer.  When the parser throws, nothing is asked and
    nothing is generated. *)
Theorem scaffold_asks_only_open_questions
    {console : Scaffold.Console} (argv : list string) (st : Scaffold.State) :
  match Scaffold.parse argv with
  | None => Scaffold.run argv st = (Threw, st)
  | Some flags =>
      ∃ final,
        drop (length (Scaffold.actions st)) (Scaffold.actions (Scaffold.run argv st).2)
        = map Scaffold.Asked (Scaffold.openQuestions flags) ++ [Scaffold.Generated final] ∧
        Scaffold.questions (Scaffold.actions (Scaffold.run argv st).2)
        = Scaffold.questions (Scaffold.actions st) ++ Scaffold.openQuestions flags ∧
        Scaffold.handed (Scaffold.actions (Scaffold.run argv st).2)
        = Scaffold.handed (Scaffold.actions st) ++ [final]
  end.
Proof.
  destruct (Scaffold.parse argv) as [flags |] eqn:Hp.
  - destruct (scaffold_run_spec argv flags st Hp) as (final & c & t & -> & _).
    exists final. cbn [snd Scaffold.actions]. split; [by rewrite drop_app_length |].
    rewrite !questions_app, !handed_app, questions_asked, handed_asked.
    split; [by rewrite app_nil_r | done].
  - unfold Scaffold.run. by rewrite Hp.
Qed.

(** X15.  A flag given on the command line is never replaced by an answer:
    the output directory always, a non-empty name, organization or
    language, and the example-step choice whether it is yes or no, reach
    the generator as parsed. *)
Theorem scaffold_keeps_given_flags
    {console : Scaffold.Console} (argv : list string) (flags : Scaffold.Flags)
    (st : Scaffold.State) :
  Scaffold.parse argv = Some flags →
  ∃ final,
    Scaffold.handed (Scaffold.actions (Scaffold.run argv st).2)
    = Scaffold.handed (Scaffold.actions st) ++ [final] ∧
    Scaffold.output_directory final = Scaffold.output_directory flags ∧
    (∀ n, Scaffold.name flags = Some n → n ≠ ""%string → Scaffold.name final = Some n) ∧
    (∀ o, Scaffold.org flags = Some o → o ≠ ""%string → Scaffold.org final = Some o) ∧
    (∀ l, Scaffold.language flags = Some l → l ≠ ""%string →
          Scaffold.language final = Some l) ∧
    (∀ b, Scaffold.include_example_step flags = Some b →
          Scaffold.include_example_step final = Some b).
Proof.
  intros Hp.
  destruct (scaffold_run_spec argv flags st Hp) as (final & c & t & Hrun & Hd & Hn & Ho & Hl & He).
  exists final. rewrite Hrun. cbn [snd Scaffold.actions]. split.
  { by rewrite !handed_app, handed_asked. }
  split; [exact Hd |]. repeat split.
  - intros n Hn' Hne. pose proof (proj2 (truthy_Some n) Hne) as Ht.
    by rewrite Hn', Ht in Hn.
  - intros o Ho' Hne. pose proof (proj2 (truthy_Some o) Hne) as Ht.
    by rewrite Ho', Ht in Ho.
  - intros l Hl' Hne. pose proof (proj2 (truthy_Some l) Hne) as Ht.
    by rewrite Hl', Ht in Hl.
  - intros b Hb. by rewrite Hb in He.
Qed.

Lemma scaffold_keeps_given_flags_witness :
  @Scaffold.parse Scaffold.demoConsole ["Zendesk"%string]
  = Some {| Scaffold.language := Some "typescript"%string;
            Scaffold.output_directory := "/work"%string;
            Scaffold.name := Some "Zendesk"%string; Scaffold.org := Some "acme"%string;
            Scaffold.include_example_step := Some false |} ∧
  ∃ final,
    Scaffold.actions (@Scaffold.run Scaffold.demoConsole ["Zendesk"%string] Scaffold.demoStart).2
    = [Scaffold.Generated final] ∧
    Scaffold.name final = Some "Zendesk"%string ∧
    Scaffold.include_example_step final = Some false.
Proof.
  split; [reflexivity |].
  destruct (@scaffold_keeps_given_flags Scaffold.demoConsole ["Zendesk"%string] _
              Scaffold.demoStart eq_refl)
    as (final & Hh & _ & Hn & _ & _ & He).
  exists final. split.
  - vm_compute in Hh. injection Hh as <-. reflexivity.
  - split; [apply Hn; [reflexivity | discriminate] | apply He; reflexivity].
Defined.

(** X16.  An answer is handed on as it is given: for each flag the
    command line leaves open, the generator receives exactly the answer
    to the question of that flag, each question being put to the terminal
    as the questions before it left it.  Nothing checks the answer: an
    empty answer to the name, organization or language question reaches
    the generator as the empty string, which the command's own test
    takes for a flag that is not set. *)
Theorem scaffold_hands_answers_unchecked
    {console : Scaffold.Console} (argv : list string) (flags : Scaffold.Flags)
    (st : Scaffold.State) :
  Scaffold.parse argv = Some flags →
  let t := Scaffold.terminal st in
  let nameAnswer := (Scaffold.askText Scaffold.nameQuestion t).1 in
  let orgAnswer := (Scaffold.askText Scaffold.orgQuestion (Scaffold.afterName flags t)).1 in
  let languageAnswer :=
    (Scaffold.askText Scaffold.languageQuestion (Scaffold.afterOrg flags t)).1 in
  let exampleAnswer :=
    (Scaffold.askYesNo Scaffold.exampleQuestion (Scaffold.afterLanguage flags t)).1 in
  ∃ final,
    Scaffold.handed (Scaffold.actions (Scaffold.run argv st).2)
    = Scaffold.handed (Scaffold.actions st) ++ [final] ∧
    (Js.truthy (Scaffold.name flags) = false →
     Scaffold.name final = Some nameAnswer ∧
     (nameAnswer = ""%string → Js.truthy (Scaffold.name final) = false)) ∧
    (Js.truthy (Scaffold.org flags) = false →
     Scaffold.org final = Some orgAnswer ∧
     (orgAnswer = ""%string → Js.truthy (Scaffold.org final) = false)) ∧
    (Js.truthy (Scaffold.language flags) = false →
     Scaffold.language final = Some languageAnswer ∧
     (languageAnswer = ""%string → Js.truthy (Scaffold.language final) = false)) ∧
    (Scaffold.include_example_step flags = None →
     Scaffold.include_example_step final = Some exampleAnswer).
Proof.
  intros Hp. cbn zeta.
  unfold Scaffold.run, Scaffold.afterLanguage, Scaffold.afterOrg, Scaffold.afterName.
  rewrite Hp.
  unfold Scaffold.fillName, Scaffold.fillOrg, Scaffold.fillLanguage, Scaffold.fillExample,
    Scaffold.promptText, Scaffold.promptYesNo.
  destruct flags as [lang dir nm og ex]. cbn [Scaffold.name Scaffold.org Scaffold.language
    Scaffold.include_example_step Scaffold.output_directory].
  destruct (Js.truthy nm); cbn [negb];
    [| destruct (Scaffold.askText Scaffold.nameQuestion _) as [a1 t1]];
    cbn [Scaffold.name Scaffold.org Scaffold.language Scaffold.include_example_step
           Scaffold.output_directory Scaffold.terminal Scaffold.actions fst snd];
    (destruct (Js.truthy og); cbn [negb];
     [| destruct (Scaffold.askText Scaffold.orgQuestion _) as [a2 t2]]);
    cbn [Scaffold.name Scaffold.org Scaffold.language Scaffold.include_example_step
           Scaffold.output_directory Scaffold.terminal Scaffold.actions fst snd];
    (destruct (Js.truthy lang); cbn [negb];
     [| destruct (Scaffold.askText Scaffold.languageQuestion _) as [a3 t3]]);
    cbn [Scaffold.name Scaffold.org Scaffold.language Scaffold.include_example_step
           Scaffold.output_directory Scaffold.terminal Scaffold.actions fst snd];
    (destruct ex as [b |];
     [| destruct (Scaffold.askYesNo Scaffold.exampleQuestion _) as [a4 t4]]);
    cbn [Scaffold.name Scaffold.org Scaffold.language Scaffold.include_example_step
           Scaffold.output_directory Scaffold.terminal Scaffold.actions fst snd];
    match goal with
    | |- context [Scaffold.generate ?f ?t] => destruct (Scaffold.generate f t) as [c t']
    end;
    eexists;
    cbn [Scaffold.name Scaffold.org Scaffold.language Scaffold.include_example_step
           Scaffold.output_directory Scaffold.terminal Scaffold.actions fst snd];
    (split; [rewrite !handed_app, ?app_nil_r; reflexivity |]);
    cbn [Scaffold.name Scaffold.org Scaffold.language Scaffold.include_example_step];
    repeat split; try done; by intros ->.
Qed.

Lemma scaffold_hands_answers_unchecked_witness :
  @Scaffold.parse Scaffold.silentConsole []
  = Some {| Scaffold.language := None; Scaffold.output_directory := "/work"%string;
            Scaffold.name := Some "Zendesk"%string; Scaffold.org := None;
            Scaffold.include_example_step := None |} ∧
  ∃ final,
    Scaffold.handed
      (Scaffold.actions (@Scaffold.run Scaffold.silentConsole [] Scaffold.silentStart).2)
    = [final] ∧
    final = {| Scaffold.language := Some ""%string;
               Scaffold.output_directory := "/work"%string;
               Scaffold.name := Some "Zendesk"%string; Scaffold.org := Some ""%string;
               Scaffold.include_example_step := Some false |} ∧
    Scaffold.openQuestions final = [Scaffold.orgQuestion; Scaffold.languageQuestion].
Proof.
  split; [reflexivity |].
  destruct (@scaffold_hands_answers_unchecked Scaffold.silentConsole [] _
              Scaffold.silentStart eq_refl)
    as (final & Hh & _).
  exists final. split; [exact Hh |].
  vm_compute in Hh. injection Hh as <-. split; reflexivity.
Defined.

(* ===================================================================== *)
(** * More on [parseTokens] *)
(* ===================================================================== *)

(** What one raw value does to the mapping: nothing, or one plain entry. *)
Lemma parseTokens_step_cases m t :
  parseTokens_step m t = m ∨
  ∃ k v, plainEntry k v ∧ before_eq t = k ∧ token_value t = Some v ∧
         parseTokens_step m t = <[k := v]> m.
Proof.
  unfold parseTokens_step. cbn zeta. rewrite split_name, split_value.
  destruct (Js.truthy (Some (before_eq t))) eqn:Hk; [| by left].
  destruct (token_value t) as [v |] eqn:Hv; [| by left].
  destruct (Js.truthy (Some v)) eqn:Htv; [| by left]. simpl.
  unfold Js.obj_set. destruct (decide (before_eq t = "__proto__"%string)); [by left |].
  right. exists (before_eq t), v. split; [| done].
  apply truthy_Some in Hk. apply truthy_Some in Htv.
  assert (∀ s, hasChar "="%char (before_eq s) = false) as Hplain.
  { induction s as [| c r IH]; [done |]. simpl.
    destruct (decide (c = "="%char)); [done |]. simpl.
    by destruct (decide (c = "="%char)). }
  repeat split; try done.
  unfold token_value in Hv. destruct (after_eq t) as [r |]; [| done].
  injection Hv as <-. apply Hplain.
Qed.

Lemma parseTokens_step_union m1 m2 t :
  parseTokens_step (m1 ∪ m2) t = parseTokens_step m1 t ∪ m2.
Proof.
  unfold parseTokens_step. cbn zeta.
  destruct (Js.truthy _ && Js.truthy _); [| done].
  destruct (Js.split "="%char 2 t !! 0), (Js.split "="%char 2 t !! 1); try done.
  unfold Js.obj_set. destruct (decide (_ = _)); [done |].
  by rewrite insert_union_l.
Qed.

Lemma parseTokens_from m raw : foldl parseTokens_step m raw = parseTokens raw ∪ m.
Proof.
  induction raw as [| t raw IH] using rev_ind.
  - unfold parseTokens. simpl. by rewrite (left_id_L ∅ (∪)).
  - rewrite parseTokens_snoc, foldl_app. simpl.
    by rewrite IH, parseTokens_step_union.
Qed.

(** X1.  Parsing two lists of raw values one after the other gives the
    entries of the second list, and those of the first list whose names
    the second does not define: flags given later win. *)
Theorem parseTokens_app (first second : list string) :
  parseTokens (first ++ second) = parseTokens second ∪ parseTokens first.
Proof. unfold parseTokens at 1. rewrite foldl_app. apply parseTokens_from. Qed.

(** X2.  Every entry [parseTokens] returns is plain: its name is not
    empty and is not [__proto__], its value is not empty, and neither
    holds an ['=']; the mapping never has more entries than there are raw
    values. *)
Theorem parseTokens_entries_plain (raw : list string) :
  map_Forall plainEntry (parseTokens raw) ∧ size (parseTokens raw) ≤ length raw.
Proof.
  induction raw as [| t raw [IH IHs]] using rev_ind.
  - split; [apply map_Forall_empty | done].
  - rewrite parseTokens_snoc, length_app. simpl.
    destruct (parseTokens_step_cases (parseTokens raw) t) as [-> | (k & v & Hkv & _ & _ & ->)].
    + split; [done | lia].
    + split; [by apply map_Forall_insert_2 |].
      destruct (parseTokens raw !! k) as [x |] eqn:Hl.
      * rewrite map_size_insert_Some; [lia | by eexists].
      * rewrite map_size_insert_None; [lia | done].
Qed.

Lemma before_eq_plain_prefix k rest :
  hasChar "="%char k = false →
  before_eq (k +:+ "=" +:+ rest) = k ∧ after_eq (k +:+ "=" +:+ rest) = Some rest.
Proof.
  induction k as [| c k IH]; [done |]. simpl.
  destruct (decide (c = "="%char)); [done |]. intros H.
  destruct (IH H) as [-> ->]. done.
Qed.

Lemma before_eq_plain v : hasChar "="%char v = false → before_eq v = v.
Proof.
  induction v as [| c v IH]; [done |]. simpl.
  destruct (decide (c = "="%char)); [done |]. intros H. by rewrite IH.
Qed.

Lemma parseTokens_step_rawToken m k v :
  plainEntry k v → parseTokens_step m (rawToken (k, v)) = <[k := v]> m.
Proof.
  intros (Hk & Hv & Hproto & Hke & Hve).
  destruct (parseTokens_step_defines m (rawToken (k, v)) k) as (v' & Hv' & ->).
  - unfold defines, token_value, rawToken. cbn [fst snd].
    destruct (before_eq_plain_prefix k v Hke) as [-> ->]. simpl.
    rewrite (before_eq_plain v Hve). eauto 10.
  - unfold token_value, rawToken in Hv'. cbn [fst snd] in Hv'.
    destruct (before_eq_plain_prefix k v Hke) as [_ Ha]. rewrite Ha in Hv'. simpl in Hv'.
    rewrite (before_eq_plain v Hve) in Hv'. by injection Hv' as <-.
Qed.

Lemma parseTokens_rawTokens_list (l : list (string * string)) :
  Forall (fun kv => plainEntry kv.1 kv.2) l → NoDup l.*1 →
  parseTokens (rawToken <$> l) = list_to_map l.
Proof.
  induction l as [| [k v] l IH] using rev_ind; [done |].
  rewrite Forall_app, Forall_singleton, fmap_app, NoDup_app. cbn [fst snd].
  intros [Hl Hkv] (Hnd & Hdisj & _). rewrite fmap_app. simpl.
  rewrite parseTokens_snoc, (IH Hl Hnd), (parseTokens_step_rawToken _ _ _ Hkv).
  rewrite list_to_map_snoc; [done |]. intros Hin. apply (Hdisj k Hin).
  apply list_elem_of_singleton. done.
Qed.

(** X3.  Writing a mapping of plain entries back as raw [name=value]
    values and parsing them returns the mapping: every mapping of plain
    entries is the result of some flags, and parsing loses nothing of
    such flags. *)
Theorem parseTokens_rawTokens (m : gmap string string) :
  map_Forall plainEntry m → parseTokens (rawTokens m) = m.
Proof.
  intros H. unfold rawTokens. rewrite parseTokens_rawTokens_list.
  - apply list_to_map_to_list.
  - apply map_Forall_to_list in H. eapply Forall_impl; [exact H |]. by intros [k v].
  - apply NoDup_fst_map_to_list.
Qed.

Lemma parseTokens_rawTokens_witness :
  map_Forall plainEntry ({["utmSource"%string := "Email"%string]} : gmap string string) ∧
  parseTokens (rawTokens {["utmSource"%string := "Email"%string]})
  = {["utmSource"%string := "Email"%string]}.
Proof.
  assert (map_Forall plainEntry ({["utmSource"%string := "Email"%string]} : gmap string string))
    as H.
  { apply map_Forall_singleton. repeat split; discriminate || reflexivity. }
  split; [exact H |]. exact (parseTokens_rawTokens _ H).
Defined.

(* ===================================================================== *)
(** * More on [parseScenarioFiles] *)
(* ===================================================================== *)

Section ScenarioFiles.
Context {host : Host}.

Lemma parse_each_inr files tokens scs :
  parse_each files tokens = inr scs ↔
  Forall2 (fun f s => newScenario f tokens = inr s) files scs.
Proof.
  revert scs. induction files as [| f files IH]; intros scs; simpl.
  - split; [intros [= <-]; constructor | by inversion 1].
  - destruct (newScenario f tokens) as [e | s] eqn:Hf.
    + split; [done | inversion 1; congruence].
    + destruct (parse_each files tokens) as [e | ss] eqn:Hrest.
      * split; [done |]. inversion 1 as [| ? s' ? ss' Hs Hss]; subst.
        apply IH in Hss. done.
      * split.
        -- intros [= <-]. constructor; [done | by apply IH].
        -- inversion 1 as [| ? s' ? ss' Hs Hss]; subst.
           apply IH in Hss. congruence.
Qed.

Lemma parse_each_first_error pre f post tokens e :
  Forall (fun f' => ∃ s, newScenario f' tokens = inr s) pre →
  newScenario f tokens = inl e →
  parse_each (pre ++ f :: post) tokens = inl e.
Proof.
  induction 1 as [| f' pre [s Hs] _ IH]; intros Hf; simpl.
  - by rewrite Hf.
  - rewrite Hs. by rewrite (IH Hf).
Qed.

Lemma parseScenarioFiles_parse_each fileOrDirectory tokens :
  parseScenarioFiles fileOrDirectory tokens =
  match scenarioFilesOf fileOrDirectory with
  | [] => inl (Error ("No .crank.yml files found in " +:+ fileOrDirectory))
  | files => parse_each files tokens
  end.
Proof.
  unfold parseScenarioFiles, scenarioFilesOf. cbn zeta.
  destruct (lstat_isDirectory fileOrDirectory) as [[|] |]; simpl.
  - by destruct (glob_sync _).
  - by destruct (newScenario fileOrDirectory tokens).
  - by destruct (newScenario fileOrDirectory tokens).
Qed.

(** X4.  When [parseScenarioFiles] returns, the batch is not empty and
    holds one scenario per scenario file, in the order of the files, each
    built from its file with the same token overrides: the matches of the
    glob for a directory, the path itself otherwise. *)
Theorem parseScenarioFiles_one_per_file
    (fileOrDirectory : string) (tokens : gmap string string) (scs : list Scenario) :
  parseScenarioFiles fileOrDirectory tokens = inr scs →
  scs ≠ [] ∧
  length scs = length (scenarioFilesOf fileOrDirectory) ∧
  Forall2 (fun f s => newScenario f tokens = inr s) (scenarioFilesOf fileOrDirectory) scs.
Proof.
  rewrite parseScenarioFiles_parse_each.
  destruct (scenarioFilesOf fileOrDirectory) as [| f files] eqn:Hfiles; [done |].
  intros H%parse_each_inr.
  split; [| split; [symmetry; by eapply Forall2_length | done]].
  intros ->. inversion H.
Qed.

(** X5.  When a scenario file cannot be parsed, the run reports the error
    of the first such file, in the order of the files, and stops there:
    it starts no session and runs nothing, not even the scenarios parsed
    before the broken file; the exit-status flag is 1. *)
Theorem broken_file_stops_before_sessions
    (p : Parsed) (proc : Process) (pre post : list string) (f : string) (e : SetupError) :
  let tokens := parseTokens (default [] (flags_token p)) in
  scenarioFilesOf (args_file p) = pre ++ f :: post →
  Forall (fun f' => ∃ s, newScenario f' tokens = inr s) pre →
  newScenario f tokens = inl e →
  (runParsed p proc).1 = None ∧
  world (runParsed p proc).2 = world proc ∧
  exitCode (runParsed p proc).2 = Some 1 ∧
  output (runParsed p proc).2 = output proc ++ reportLines e ∧
  omap callOfEvent (reportLines e) = [].
Proof.
  intros tokens Hfiles Hpre Hf.
  assert (parseScenarioFiles (args_file p) tokens = inl e) as Hparse.
  { rewrite parseScenarioFiles_parse_each, Hfiles.
    rewrite <- (parse_each_first_error pre f post tokens e Hpre Hf).
    by destruct pre. }
  rewrite (runParsed_error p proc e proc).
  - cbn [fst snd more world exitCode output]. repeat split.
    destruct e as [m [u |] | m | m]; simpl; try done. by destruct (negb _).
  - unfold setUp. fold tokens. by rewrite Hparse.
Qed.

End ScenarioFiles.

Lemma parseScenarioFiles_one_per_file_witness :
  @parseScenarioFiles Demo.host "suite" ∅ = inr [Demo.scenarioBA; Demo.scenarioBCD] ∧
  @scenarioFilesOf Demo.host "suite" = ["/suite/ba.crank.yml"%string; "/suite/bcd.crank.yml"%string] ∧
  length [Demo.scenarioBA; Demo.scenarioBCD] = 2.
Proof.
  split; [reflexivity |]. split; [reflexivity |].
  destruct (@parseScenarioFiles_one_per_file Demo.host "suite" ∅
              [Demo.scenarioBA; Demo.scenarioBCD] eq_refl) as (_ & Hlen & _).
  exact Hlen.
Defined.

Lemma broken_file_stops_before_sessions_witness :
  let p := {| args_file := "mixed"; flags_token := None; flags_use_ssl := false |} in
  @scenarioFilesOf Folder.host "mixed"
  = ["/suite/ba.crank.yml"%string] ++ "unknown.crank.yml"%string :: ["gone.crank.yml"%string] ∧
  Forall (fun f' => ∃ s, @newScenario Folder.host f' (parseTokens []) = inr s)
    ["/suite/ba.crank.yml"%string] ∧
  @newScenario Folder.host "unknown.crank.yml" (parseTokens [])
  = inl (MissingStepError "Missing step definition") ∧
  output (@runParsed Folder.host p Folder.start).2
  = reportLines (MissingStepError "Missing step definition").
Proof.
  intros p.
  assert (Forall (fun f' => ∃ s, @newScenario Folder.host f' (parseTokens []) = inr s)
            ["/suite/ba.crank.yml"%string]) as Hpre.
  { constructor; [| constructor]. by eexists. }
  split; [reflexivity |]. split; [exact Hpre |]. split; [reflexivity |].
  destruct (@broken_file_stops_before_sessions Folder.host p Folder.start
              ["/suite/ba.crank.yml"%string] ["gone.crank.yml"%string]
              "unknown.crank.yml" (MissingStepError "Missing step definition")
              eq_refl Hpre eq_refl) as (_ & _ & _ & Hout & _).
  exact Hout.
Defined.

(** X6.  The glob pattern never holds a backslash: [windowsSafeGlob] is the
    path with every backslash turned into a slash, of the same length,
    and the path itself when it holds no backslash. *)
Theorem windowsSafeGlob_has_no_backslash (fileOrDirectory : string) :
  hasChar "\"%char (Js.replace_backslashes fileOrDirectory +:+ "/**/*.crank.yml") = false ∧
  String.length (Js.replace_backslashes fileOrDirectory) = String.length fileOrDirectory ∧
  (hasChar "\"%char fileOrDirectory = false →
   Js.replace_backslashes fileOrDirectory = fileOrDirectory) ∧
  (∀ i c, String.get i fileOrDirectory = Some c →
     String.get i (Js.replace_backslashes fileOrDirectory)
     = Some (if decide (c = "\"%char) then "/"%char else c)).
Proof.
  repeat split.
  - induction fileOrDirectory as [| c r IH]; [done |]. simpl.
    destruct (decide (c = "\"%char)) as [-> |]; simpl.
    + exact IH.
    + destruct (decide (c = "\"%char)); [done | exact IH].
  - induction fileOrDirectory as [| c r IH]; [done |]. simpl. by rewrite IH.
  - induction fileOrDirectory as [| c r IH]; [done |]. simpl.
    destruct (decide (c = "\"%char)); [done |]. intros H. by rewrite IH.
  - induction fileOrDirectory as [| c r IH]; intros i d; [done |].
    destruct i as [| i]; simpl.
    + by intros [= ->].
    + apply IH.
Qed.

(* ===================================================================== *)
(** * More on the walk over a plan *)
(* ===================================================================== *)

Section PlanWalk.
Context {host : Host}.

Lemma added_app (before new : list Event) : added before (before ++ new) = new.
Proof. unfold added. by rewrite drop_app_length. Qed.

Lemma runScenario_added sc overall p :
  added (output p) (output (runScenario sc overall p).2) = scenarioEvents sc (world p).
Proof. rewrite runScenario_spec. cbn zeta. cbn [snd more output]. apply added_app. Qed.

Lemma calls_callEvents el r :
  omap callOfEvent (callEvents el r) = option_list (callOf el).
Proof. destruct el as [s | step]; [done |]. simpl. by destruct (stepRunner step). Qed.

Lemma omap_cons_option_list {A B} (f : A → option B) x l :
  omap f (x :: l) = option_list (f x) ++ omap f l.
Proof. simpl. by destruct (f x). Qed.

Lemma calls_walkEvents plan w :
  omap callOfEvent (walkEvents plan w) = omap callOf (reached plan (walk plan w).1).
Proof.
  revert w. induction plan as [| el plan IH]; intros w; [done |].
  cbn [walkEvents walk]. destruct (settle el w) as [[| e] w'].
  - rewrite omap_app, calls_callEvents, IH.
    destruct (walk plan w') as [[[k e] |] w'']; cbn [fst reached take];
      by rewrite omap_cons_option_list.
  - cbn [fst reached take]. rewrite calls_callEvents, omap_cons_option_list.
    by rewrite take_0, app_nil_r.
Qed.

Lemma calls_skipped (l : list (Js.OneOrMany string)) :
  omap callOfEvent (map LogSkipped l) = [].
Proof. by induction l. Qed.

Lemma skipped_callEvents el r : omap skippedOfEvent (callEvents el r) = [].
Proof. destruct el as [s | step]; [done |]. simpl. by destruct (stepRunner step). Qed.

Lemma skipped_walkEvents plan w : omap skippedOfEvent (walkEvents plan w) = [].
Proof.
  revert w. induction plan as [| el plan IH]; intros w; [done |]. simpl.
  destruct (settle el w) as [[| e] w'].
  - by rewrite omap_app, skipped_callEvents, IH.
  - apply skipped_callEvents.
Qed.

Lemma skipped_skipped (l : list (Js.OneOrMany string)) :
  omap skippedOfEvent (map LogSkipped l) = l.
Proof. induction l as [| t l IH]; [done |]. simpl. f_equal. exact IH. Qed.

Lemma skipTexts_zero rest : skipTexts rest 0 = map stepText (planSteps rest).
Proof.
  induction rest as [| [s | step] rest IH]; [done | |]; unfold planSteps in *; simpl.
  - by rewrite IH.
  - by rewrite drop_0, IH, map_app.
Qed.

(** X7.  The plan elements are handed to the step engine in plan order,
    each at most once, and none after the first one that rejects: the
    engine calls of a scenario are those of the elements up to and
    including the failing one, or of all elements when none fails. *)
Theorem engine_calls_stop_at_first_failure (sc : Scenario) (overall : Timer) (p : Process) :
  omap callOfEvent (added (output p) (output (runScenario sc overall p).2))
  = omap callOf (reached (optimizedSteps sc) (walk (optimizedSteps sc) (world p)).1).
Proof.
  rewrite runScenario_added. unfold scenarioEvents. cbn zeta.
  rewrite !omap_app, calls_walkEvents. simpl.
  unfold skipEvents.
  destruct (walk (optimizedSteps sc) (world p)).1 as [[k e] |]; simpl;
    by rewrite ?calls_skipped, app_nil_r.
Qed.

Lemma skipTexts_split rest innerIndex :
  skipTexts rest innerIndex
  = map stepText (leadingSingles rest)
    ++ match fromFirstGroup rest with
       | [] => []
       | g :: later =>
           map stepText (drop innerIndex (members g)) ++ map stepText (planSteps later)
       end.
Proof.
  induction rest as [| [s | step] rest IH]; [done | |].
  - cbn [skipTexts leadingSingles fromFirstGroup map]. by rewrite IH.
  - cbn [skipTexts leadingSingles fromFirstGroup map members]. by rewrite skipTexts_zero.
Qed.

(** X8.  After a scenario aborts at element [k], the steps logged as
    skipped are, in plan order: every single step from element [k] up to
    the first group at or after [k]; of that group the members from
    [innerIndex] on, the length of the rejected array or 0 when no array
    was rejected; then every step of every later element.  So with
    [innerIndex] 0 these are all steps from element [k] on; when the
    failing element is a group, its members from [innerIndex] on and all
    later steps; when it is a single step rejecting with no array, the
    step itself and all later steps. *)
Theorem skipped_lines_after_abort
    (sc : Scenario) (overall : Timer) (p : Process) (k : nat) (e : Thrown) :
  (walk (optimizedSteps sc) (world p)).1 = Some (k, e) →
  let lines := omap skippedOfEvent (added (output p) (output (runScenario sc overall p).2)) in
  let rest := drop k (optimizedSteps sc) in
  lines
  = map stepText (leadingSingles rest)
    ++ match fromFirstGroup rest with
       | [] => []
       | g :: later =>
           map stepText (drop (innerOf e) (members g)) ++ map stepText (planSteps later)
       end ∧
  (innerOf e = 0 → lines = map stepText (planSteps rest)) ∧
  (∀ step, optimizedSteps sc !! k = Some (Group step) →
     lines = map stepText (drop (innerOf e) step)
             ++ map stepText (planSteps (drop (S k) (optimizedSteps sc)))) ∧
  (∀ s, optimizedSteps sc !! k = Some (Single s) → (∀ rs, e ≠ Responses rs) →
     lines = stepText s :: map stepText (planSteps (drop (S k) (optimizedSteps sc)))).
Proof.
  intros Hw lines rest.
  assert (lines = skipTexts rest (innerOf e)) as Hlines.
  { unfold lines. rewrite runScenario_added. unfold scenarioEvents. cbn zeta.
    rewrite Hw. rewrite !omap_app, skipped_walkEvents. simpl.
    by rewrite skipped_skipped, app_nil_r. }
  rewrite Hlines. split; [apply skipTexts_split |]. split; [| split].
  - intros ->. apply skipTexts_zero.
  - intros step Hl. unfold rest. rewrite (drop_lookup_cons _ _ _ Hl).
    cbn [skipTexts]. by rewrite skipTexts_zero.
  - intros s Hl He. unfold rest. rewrite (drop_lookup_cons _ _ _ Hl).
    assert (innerOf e = 0) as -> by (destruct e; [by edestruct He | done | done]).
    cbn [skipTexts]. by rewrite skipTexts_zero.
Qed.

(** X9.  When a group rejects with the outcomes of its first members, no
    more outcomes than it has members, every step-unit of the scenario is
    counted exactly once: passed are the units before the group and the
    passed outcomes, failed the other outcomes, skipped the remaining
    members and the units of the later elements. *)
Theorem group_abort_counts_each_unit_once
    (sc : Scenario) (overall : Timer) (p : Process) (k : nat)
    (rs : list RunStepResponse) (step : list RunnerStep) :
  (walk (optimizedSteps sc) (world p)).1 = Some (k, Responses rs) →
  optimizedSteps sc !! k = Some (Group step) →
  length rs ≤ length step →
  let timer := (runScenario sc overall p).1.2 in
  counted timer = totalUnits (optimizedSteps sc) ∧
  passed timer
  = totalUnits (take k (optimizedSteps sc)) + (length rs - length (filter notPassed rs)) ∧
  failed timer = length (filter notPassed rs) ∧
  skipped timer
  = (length step - length rs) + totalUnits (drop (S k) (optimizedSteps sc)).
Proof.
  intros Hw Hl Hle timer. unfold timer. rewrite runScenario_timer, Hw.
  split; [by eapply abort_at_group_counts |].
  unfold timerOf. cbn [passed failed skipped tally addSkippedStep addFailedStep
    addPassedStep newTimer innerOf].
  rewrite (drop_lookup_cons _ _ _ Hl). cbn [skipUnits].
  rewrite skipUnits_zero, length_drop. repeat split; lia.
Qed.

(** X10.  When the rejection is not an array of outcomes, as for a single
    step that fails or an empty group, one unit is counted twice: one
    failed unit is added and the cascade then skips the whole failing
    element with all later ones, so the counters add up to the step-units
    of the scenario plus one. *)
Theorem other_abort_counts_one_unit_twice
    (sc : Scenario) (overall : Timer) (p : Process) (k : nat) (e : Thrown) :
  (walk (optimizedSteps sc) (world p)).1 = Some (k, e) →
  (∀ rs, e ≠ Responses rs) →
  let timer := (runScenario sc overall p).1.2 in
  passed timer = totalUnits (take k (optimizedSteps sc)) ∧
  failed timer = 1 ∧
  skipped timer = totalUnits (drop k (optimizedSteps sc)) ∧
  counted timer = totalUnits (optimizedSteps sc) + 1.
Proof.
  intros Hw He timer. unfold timer. rewrite runScenario_timer, Hw.
  assert (passed (timerOf (optimizedSteps sc) (Some (k, e)))
          = totalUnits (take k (optimizedSteps sc))
          ∧ failed (timerOf (optimizedSteps sc) (Some (k, e))) = 1
          ∧ skipped (timerOf (optimizedSteps sc) (Some (k, e)))
            = totalUnits (drop k (optimizedSteps sc))) as (Hp & Hf & Hs).
  { unfold timerOf. destruct e as [rs | r | m]; [by edestruct He | |];
      cbn [passed failed skipped tally addSkippedStep addFailedStep addPassedStep
             newTimer innerOf]; by rewrite skipUnits_zero. }
  repeat split; try done. unfold counted. rewrite Hp, Hf, Hs.
  rewrite (totalUnits_take_drop k (optimizedSteps sc)). lia.
Qed.

(** X11.  A scenario whose elements all resolve counts every step-unit as
    passed and none as failed or skipped, logs no step as skipped, adds
    one passed unit to the overall Timer and leaves the exit-status flag
    as it was. *)
Theorem completed_scenario_counts_all_passed (sc : Scenario) (overall : Timer) (p : Process) :
  (walk (optimizedSteps sc) (world p)).1 = None →
  (runScenario sc overall p).1
  = (addPassedStep 1 overall,
     {| passed := totalUnits (optimizedSteps sc); failed := 0; skipped := 0 |}) ∧
  exitCode (runScenario sc overall p).2 = exitCode p ∧
  omap skippedOfEvent (added (output p) (output (runScenario sc overall p).2)) = [].
Proof.
  intros Hw. split; [| split].
  - rewrite runScenario_spec. cbn zeta. rewrite Hw. cbn [fst aborted timerOf].
    f_equal.
  - rewrite runScenario_spec. cbn zeta. rewrite Hw. done.
  - rewrite runScenario_added. unfold scenarioEvents. cbn zeta. rewrite Hw.
    rewrite !omap_app, skipped_walkEvents. done.
Qed.

End PlanWalk.

Lemma skipped_lines_after_abort_witness :
  ((@walk Demo.host (optimizedSteps Demo.scenarioBA) tt).1
   = Some (1, Response {| getOutcome := FAILED; getMessage := "" |}) ∧
   omap skippedOfEvent
     (added [] (output (@runScenario Demo.host Demo.scenarioBA newTimer Demo.start).2))
   = [Js.One "A"%string]) ∧
  ((@walk Arrays.host (optimizedSteps Arrays.scenarioBCDE) tt).1
   = Some (0, Responses [Demo.response FAILED; Demo.response FAILED]) ∧
   leadingSingles (drop 0 (optimizedSteps Arrays.scenarioBCDE)) = [Demo.B] ∧
   fromFirstGroup (drop 0 (optimizedSteps Arrays.scenarioBCDE))
   = [Group [Demo.C; Demo.D; Demo.E]] ∧
   omap skippedOfEvent
     (added [] (output (@runScenario Arrays.host Arrays.scenarioBCDE newTimer Arrays.start).2))
   = [Js.One "B"%string; Js.One "E"%string]).
Proof.
  split.
  - split; [reflexivity |].
    exact (proj1 (@skipped_lines_after_abort Demo.host Demo.scenarioBA newTimer Demo.start 1
                    (Response {| getOutcome := FAILED; getMessage := "" |}) eq_refl)).
  - split; [reflexivity |]. split; [reflexivity |]. split; [reflexivity |].
    exact (proj1 (@skipped_lines_after_abort Arrays.host Arrays.scenarioBCDE newTimer
                    Arrays.start 0
                    (Responses [Demo.response FAILED; Demo.response FAILED]) eq_refl)).
Defined.

Lemma group_abort_counts_each_unit_once_witness :
  (@walk Demo.host (optimizedSteps Demo.scenarioCDE) tt).1
  = Some (0, Responses [Demo.response PASSED; Demo.response PASSED; Demo.response FAILED]) ∧
  optimizedSteps Demo.scenarioCDE !! 0 = Some (Group [Demo.C; Demo.D; Demo.E]) ∧
  3 ≤ 3 ∧
  counted (@runScenario Demo.host Demo.scenarioCDE newTimer Demo.start).1.2 = 3.
Proof.
  split; [reflexivity |]. split; [reflexivity |]. split; [lia |].
  destruct (@group_abort_counts_each_unit_once Demo.host Demo.scenarioCDE newTimer Demo.start 0
              [Demo.response PASSED; Demo.response PASSED; Demo.response FAILED]
              [Demo.C; Demo.D; Demo.E] eq_refl eq_refl) as (Hc & _); [simpl; lia |].
  exact Hc.
Defined.

Lemma other_abort_counts_one_unit_twice_witness :
  (@walk Demo.host (optimizedSteps Demo.scenarioAB) tt).1
  = Some (0, Response (Demo.response FAILED)) ∧
  totalUnits (optimizedSteps Demo.scenarioAB) = 2 ∧
  counted (@runScenario Demo.host Demo.scenarioAB newTimer Demo.start).1.2 = 2 + 1.
Proof.
  split; [reflexivity |]. split; [reflexivity |].
  destruct (@other_abort_counts_one_unit_twice Demo.host Demo.scenarioAB newTimer Demo.start 0
              (Response (Demo.response FAILED)) eq_refl) as (_ & _ & _ & Hc);
    [discriminate |].
  exact Hc.
Defined.

Lemma completed_scenario_counts_all_passed_witness :
  (@walk Demo.host (optimizedSteps Demo.scenarioBCD) tt).1 = None ∧
  (@runScenario Demo.host Demo.scenarioBCD newTimer Demo.start).1.2
  = {| passed := 3; failed := 0; skipped := 0 |}.
Proof.
  split; [reflexivity |].
  destruct (@completed_scenario_counts_all_passed Demo.host Demo.scenarioBCD newTimer
              Demo.start eq_refl) as (Hr & _).
  rewrite Hr. reflexivity.
Defined.

(* ===================================================================== *)
(** * The summary of a batch and the exit status *)
(* ===================================================================== *)

Section Summary.
Context {host : Host}.

Lemma hasChar_append_last c a : hasChar c (a +:+ String c EmptyString) = true.
Proof.
  induction a as [| d a IH]; simpl.
  - by destruct (decide (c = c)).
  - by destruct (decide (d = c)).
Qed.

Lemma header_is_no_summary n :
  isLine (nl +:+ "All Scenarios:") (Log (nl +:+ n +:+ nl)) = false.
Proof.
  simpl. apply String.eqb_neq. intros [= H].
  pose proof (hasChar_append_last (ascii_of_nat 10) n) as Hc.
  change (String (ascii_of_nat 10) EmptyString) with nl in Hc.
  change (n +:+ nl = "All Scenarios:"%string) in H.
  rewrite H in Hc. vm_compute in Hc. discriminate Hc.
Qed.

Lemma callEvents_no_line line el r : List.filter (isLine line) (callEvents el r) = [].
Proof. destruct el as [s | step]; [done |]. simpl. by destruct (stepRunner step). Qed.

Lemma walkEvents_no_line line plan w : List.filter (isLine line) (walkEvents plan w) = [].
Proof.
  revert w. induction plan as [| el plan IH]; intros w; [done |]. simpl.
  destruct (settle el w) as [[| e] w'].
  - by rewrite List.filter_app, callEvents_no_line, IH.
  - apply callEvents_no_line.
Qed.

Lemma skipped_no_line line (l : list (Js.OneOrMany string)) :
  List.filter (isLine line) (map LogSkipped l) = [].
Proof. by induction l. Qed.

Lemma batchEvents_no_summary scs w :
  List.filter (isLine (nl +:+ "All Scenarios:")) (batchEvents scs w) = [].
Proof.
  revert w. induction scs as [| sc scs IH]; intros w; [done |]. cbn [batchEvents].
  rewrite List.filter_app, IH, app_nil_r. unfold scenarioEvents. cbn zeta.
  rewrite !List.filter_app, walkEvents_no_line. cbn [app List.filter].
  rewrite header_is_no_summary. cbn [isLine].
  unfold skipEvents. destruct (walk (optimizedSteps sc) w).1 as [[k e] |]; simpl;
    by rewrite ?skipped_no_line.
Qed.

(** X12.  The line [All Scenarios:] and the overall Timer are printed
    exactly when the batch holds more than one scenario, as the last two
    actions of the run; the overall Timer then counts one unit per
    scenario.  A run of one scenario prints no overall summary. *)
Theorem overall_summary_only_for_several
    (p : Parsed) (proc proc1 : Process) (scs : list Scenario) :
  setUp p (parseTokens (default [] (flags_token p))) proc = (inr scs, proc1) →
  let new := added (output proc) (output (runParsed p proc).2) in
  List.filter (isLine (nl +:+ "All Scenarios:")) new
  = (if Nat.ltb 1 (length scs) then [Log (nl +:+ "All Scenarios:")] else []) ∧
  (1 < length scs →
   ∃ evs overall,
     new = evs ++ [Log (nl +:+ "All Scenarios:"); PrintTime overall] ∧
     passed overall + failed overall = length scs ∧ skipped overall = 0).
Proof.
  intros Hset new. unfold new.
  destruct (setUp_quiet _ _ _ _ _ Hset) as [Hout _].
  rewrite (runParsed_batch _ _ _ _ Hset). cbn zeta. cbn [snd more output].
  rewrite Hout, added_app. unfold closingLines. rewrite length_map. split.
  - rewrite !List.filter_app, batchEvents_no_summary. simpl.
    by destruct (Nat.ltb 1 (length scs)).
  - intros Hlt. apply Nat.ltb_lt in Hlt. rewrite Hlt.
    eexists _, _. split; [by rewrite app_assoc |].
    destruct (overallOf_counts
                (walks (map (onScenario coerceStep) scs) (world proc1)).1) as [Hsum Hsk].
    rewrite walks_length, length_map in Hsum. done.
Qed.

(** X13.  The command only ever sets the exit-status flag to 1 and never
    clears it: after the whole command, teardown included, the flag is 1
    or is what it was before. *)
Theorem exit_code_is_one_or_untouched (argv : list string) (proc : Process) :
  exitCode (command argv proc).2 = Some 1 ∨
  exitCode (command argv proc).2 = exitCode proc.
Proof.
  unfold command, bind.
  assert (exitCode (initAndRun argv proc).2 = Some 1 ∨
          exitCode (initAndRun argv proc).2 = exitCode proc) as H.
  { unfold initAndRun, init, run, bind, ret. destruct (parse argv) as [p |]; [| by right].
    destruct (setUp p (parseTokens (default [] (flags_token p))) proc)
      as [[e | scs] proc1] eqn:Hset.
    - left. pose proof (runParsed_error _ _ _ _ Hset) as Hrun.
      destruct (runParsed p proc) as [s proc']. by injection Hrun as -> ->.
    - destruct (setUp_quiet _ _ _ _ _ Hset) as [_ Hflag].
      pose proof (runParsed_batch _ _ _ _ Hset) as Hrun. cbn zeta in Hrun.
      destruct (runParsed p proc) as [s proc']. injection Hrun as -> ->.
      cbn [snd more exitCode]. unfold flagAfter. rewrite Hflag.
      destruct (existsb aborted _); [by left | by right]. }
  destruct (initAndRun argv proc) as [r mid]. rewrite finally_spec. exact H.
Qed.

End Summary.

Lemma overall_summary_only_for_several_witness :
  let p := {| args_file := "suite"; flags_token := None; flags_use_ssl := false |} in
  (∃ scs, @setUp Demo.host p (parseTokens []) Demo.start = (inr scs, Demo.start)
          ∧ length scs = 2) ∧
  List.filter (isLine (nl +:+ "All Scenarios:"))
    (added [] (output (@runParsed Demo.host p Demo.start).2))
  = [Log (nl +:+ "All Scenarios:")].
Proof.
  intros p. split; [eexists; split; reflexivity |].
  destruct (@overall_summary_only_for_several Demo.host p Demo.start Demo.start _ eq_refl)
    as [H _].
  exact H.
Defined.
